(** * LinearCombination: a shallow embedding of
    [pennylane/ops/op_math/linear_combination.py]

    The development follows the source file: the operand model (observables
    and tensors of observables), the term store with its simplifier, the
    arithmetic dunder methods, the re-mapping of Pauli groups to term
    indices, and the dense and sparse matrix assembly. *)

From Stdlib Require Import ZArith QArith Qcanon Qabs Lia Ring.
From stdpp Require Import base list strings gmap sorting.

Open Scope Z_scope.

(** ** Numeric backend

    Coefficients and matrix entries live in one numeric type (real
    coefficients embedded in the complex entries).  The source only uses
    [+], [*] and the test [np.isclose(x, 0.0)] on them. *)

Class Numeric (R : Type) := {
  r0 : R;
  r1 : R;
  radd : R -> R -> R;
  rmul : R -> R -> R;
  rsub : R -> R -> R;
  ropp : R -> R;
  (* np.isclose(qml.math.toarray(x), np.array(0.0)) *)
  isclose0 : R -> bool
}.

(** Python [int] coefficients: [np.isclose(n, 0.0)] holds exactly for [n = 0]
    ([|n| <= 1e-8] on an integer). *)
#[export] Instance Z_numeric : Numeric Z := {|
  r0 := 0; r1 := 1; radd := Z.add; rmul := Z.mul; rsub := Z.sub; ropp := Z.opp;
  isclose0 := fun z => Z.eqb z 0
|}.

(** ** Python results *)

Inductive pyerror := ValueError | TypeError | IndexError.

Inductive result (A : Type) :=
| Ok (a : A)
| Raise (e : pyerror).
Arguments Ok {A} a.
Arguments Raise {A} e.

Definition bind {A B} (r : result A) (f : A -> result B) : result B :=
  match r with
  | Ok a => f a
  | Raise e => Raise e
  end.

Notation "x <- r ;; k" := (bind r (fun x => k))
  (at level 100, r at next level, right associativity).

(** ** Operands *)

(** Wire labels: the integer labels of the source's examples ([pennylane.wires]
    is not in the sources). *)
Definition label := Z.

(** An observable: its name, the wires it acts on (at least one, as
    [Operator.__init__] demands) and its stringified parameters. *)
Record observable := Observable {
  name : string;
  wire0 : label;
  wires_more : list label;
  parameters : list string
}.

#[export] Instance observable_eq_dec : EqDecision observable.
Proof. solve_decision. Defined.

Definition obs_wires (o : observable) : list label := wire0 o :: wires_more o.

(** An operand of a term: an observable, or a [Tensor] of observables (a
    tensor always holds at least one factor). *)
Inductive operand :=
| Obs (o : observable)
| Tensor (o : observable) (os : list observable).

#[export] Instance operand_eq_dec : EqDecision operand.
Proof. solve_decision. Defined.

(** [Tensor(op).obs]: the flat list of factors; [Tensor(op)] of an observable
    is the one-factor tensor. *)
Definition obs (op : operand) : list observable :=
  match op with
  | Obs o => [o]
  | Tensor o os => o :: os
  end.

(** [Tensor(op1, op2)]: the factors of both, in order. *)
Definition tensor2 (op1 op2 : operand) : operand :=
  match obs op1 with
  | o :: os => Tensor o (os ++ obs op2)
  | [] => op2
  end.

(** Modelled from the spec: [Wires.all_wires] without sorting, the union of
    the wires with duplicates removed, every label at its first occurrence. *)
Fixpoint unique_wires (l : list label) : list label :=
  match l with
  | [] => []
  | w :: l' => w :: filter (fun v => v ≠ w) (unique_wires l')
  end.

(** [op.wires] *)
Definition op_wires (op : operand) : list label :=
  unique_wires (concat (map obs_wires (obs op))).

Definition is_identity (o : observable) : bool :=
  bool_decide (name o = "Identity"%string).

(** [Tensor.non_identity_obs] *)
Definition non_identity_obs (op : operand) : list observable :=
  List.filter (fun o => negb (is_identity o)) (obs op).

Definition key : Type := string * list label * list string.

Definition obs_key (o : observable) : key := (name o, obs_wires o, parameters o).

(** Modelled from the spec: the operand identity key ([Observable._obs_data],
    which is not in the sources; [LinearCombination._obs_data] builds the same
    triples): the set of (name, wires, parameters) of the non-identity
    factors. *)
Definition obs_data (op : operand) : gset key :=
  list_to_set (map obs_key (non_identity_obs op)).

(** Modelled from the spec: [Tensor.compare], structural equality as
    set-equality of the identity keys. *)
Definition compare_op (a b : operand) : bool :=
  bool_decide (obs_data a = obs_data b).

(** Modelled from the spec: [Tensor.prune], identity factors removed; a
    tensor of identities only becomes one [Identity] on the first wire, a
    single remaining factor is returned as the observable itself. *)
Definition prune (op : operand) : operand :=
  match non_identity_obs op with
  | [] =>
      Obs (Observable "Identity" (match obs op with o :: _ => wire0 o | [] => 0 end) [] [])
  | [o] => Obs o
  | o :: os => Tensor o os
  end.

(** [op if isinstance(op, Tensor) else Tensor(op)] *)
Definition as_tensor (op : operand) : operand :=
  match op with
  | Obs o => Tensor o []
  | Tensor _ _ => op
  end.

(** Modelled from the spec: [Wires.all_wires([op.wires for op in ops],
    sort=True)], the sorted union of all operand wires. *)
Definition all_wires_sorted (ops : list operand) : list label :=
  merge_sort Z.le (unique_wires (concat (map op_wires ops))).

(** Modelled from the spec: [Wires.shared_wires([w1, w2])], the wires that
    both stores act on. *)
Definition shared_wires (w1 w2 : list label) : list label :=
  filter (fun w => w ∈ w2) w1.

(** The relation between Pauli words and the colouring heuristic handed to
    [qml.pauli.group_ops]. *)
Inductive grouping_type := qwc | commuting | anticommuting.
Inductive method := lf | rlf.

(** ** The term store *)

Section Store.
Context {R : Type} `{Numeric R} `{EqDecision R}.

(** [qml.pauli.are_identical_pauli_words] and [qml.pauli.group_ops] are not in
    the sources: the re-mapping below takes them as they come. *)
Context (are_identical_pauli_words : operand -> operand -> bool).
Context (group_ops : list operand -> grouping_type -> method -> list (list operand)).

Record LinearCombination := LC {
  coeffs : list R;                              (* self._coeffs *)
  data : list R;                                (* self.data *)
  ops : list operand;                           (* self._ops, hyperparameters["ops"] *)
  wires : list label;                           (* self._wires *)
  grouping_indices : option (list (list nat))   (* self._grouping_indices *)
}.

(** What a dunder method can be handed. *)
Inductive pyvalue :=
| PyScalar (a : R)                  (* an int or a float *)
| PyStore (S : LinearCombination)
| PyOperand (op : operand)          (* a Tensor or an Observable *)
| PyOther.

(** What a dunder method hands back. *)
Inductive retval :=
| Returns (S : LinearCombination)
| NotImplemented.

(** *** Grouping indices *)

(** [for ind, observable in enumerate(ops): if are_identical_pauli_words(...)]:
    the first index whose observable is identical to the word. *)
Fixpoint find_word (pauli_word : operand) (ops : list operand) : option nat :=
  match ops with
  | [] => None
  | observable :: rest =>
      if are_identical_pauli_words pauli_word observable then Some 0%nat
      else S <$> find_word pauli_word rest
  end.

(** The body of [for pauli_word in partition]: the state is the remaining
    [ops], the [available_indices] and [indices_this_group]. *)
Definition place_word (st : list operand * list nat * list nat) (pauli_word : operand)
  : list operand * list nat * list nat :=
  let '(ops, available_indices, indices_this_group) := st in
  match find_word pauli_word ops with
  | Some ind =>
      match available_indices !! ind with
      | Some i => (delete ind ops, delete ind available_indices, indices_this_group ++ [i])
      | None => st
      end
  | None => st
  end.

(** The body of [for partition in observable_groups]. *)
Definition place_partition (st : list operand * list nat * list (list nat))
    (partition : list operand) : list operand * list nat * list (list nat) :=
  let '(ops, available_indices, indices) := st in
  let '(ops', available', indices_this_group) :=
    fold_left place_word partition (ops, available_indices, []) in
  (ops', available', indices ++ [indices_this_group]).

(** The loops of [_compute_grouping_indices] over given [observable_groups]. *)
Definition remap_groups (observable_groups : list (list operand)) (ops : list operand)
  : list (list nat) :=
  (fold_left place_partition observable_groups (ops, seq 0 (length ops), [])).2.

(** [_compute_grouping_indices] *)
Definition compute_grouping_indices (ops : list operand) (gt : grouping_type) (m : method)
  : list (list nat) :=
  remap_groups (group_ops ops gt m) ops.

(** *** simplify *)

(** [next((j for j, o in enumerate(new_ops) if op.compare(o)), None)] *)
Fixpoint find_ind (op : operand) (new_ops : list operand) : option nat :=
  match new_ops with
  | [] => None
  | o :: rest =>
      if compare_op op o then Some 0%nat
      else S <$> find_ind op rest
  end.

(** [new_coeffs[ind] += c] *)
Definition add_at (ind : nat) (c : R) (new_coeffs : list R) : list R :=
  match new_coeffs !! ind with
  | Some x => <[ind := radd x c]> new_coeffs
  | None => new_coeffs
  end.

(** One iteration of the loop of [simplify] on the term [(c, op)]. *)
Definition simplify_step (acc : list R * list operand) (term : R * operand)
  : list R * list operand :=
  let '(new_coeffs, new_ops) := acc in
  let '(c, op0) := term in
  let op := as_tensor op0 in
  match find_ind op new_ops with
  | Some ind =>
      let new_coeffs := add_at ind c new_coeffs in
      if match new_coeffs !! ind with Some x => isclose0 x | None => false end
      then (delete ind new_coeffs, delete ind new_ops)
      else (new_coeffs, new_ops)
  | None => (new_coeffs ++ [c], new_ops ++ [prune op])
  end.

(** The pairs [(self.coeffs[i], self.ops[i])] for [i in range(len(self.ops))];
    [self.coeffs[i]] raises [IndexError] when the coefficients run out. *)
Fixpoint indexed_terms (cs : list R) (os : list operand) : result (list (R * operand)) :=
  match os with
  | [] => Ok []
  | op :: os' =>
      match cs with
      | [] => Raise IndexError
      | c :: cs' => ts <- indexed_terms cs' os' ;; Ok ((c, op) :: ts)
      end
  end.

(** The loop of [simplify], started from empty [new_coeffs] and [new_ops]. *)
Definition simplify_terms (terms : list (R * operand)) : list R * list operand :=
  fold_left simplify_step terms ([], []).

(** [LinearCombination.simplify] *)
Definition simplify (S : LinearCombination) : result LinearCombination :=
  terms <- indexed_terms (coeffs S) (ops S) ;;
  let '(new_coeffs, new_ops) := simplify_terms terms in
  Ok {| data := new_coeffs;
        coeffs := new_coeffs;
        ops := new_ops;
        wires := all_wires_sorted new_ops;
        grouping_indices := None |}.

(** [LinearCombination.compute_grouping] *)
Definition compute_grouping (S : LinearCombination) (gt : grouping_type) (m : method)
  : LinearCombination :=
  {| data := data S; coeffs := coeffs S; ops := ops S; wires := wires S;
     grouping_indices := Some (compute_grouping_indices (ops S) gt m) |}.

(** *** Construction *)

(** What [__init__] may find in [ops]: an [Observable] (a [Tensor] is one),
    or anything else. *)
Inductive candidate :=
| IsObservable (op : operand)
| NotObservable.

(** [for obs in ops: if not isinstance(obs, Observable): raise ValueError]:
    the operands, when every entry is one. *)
Fixpoint observables (ops0 : list candidate) : option (list operand) :=
  match ops0 with
  | [] => Some []
  | IsObservable op :: rest => cons op <$> observables rest
  | NotObservable :: _ => None
  end.

(** The truth value of [op.pauli_rep] ([Operator.pauli_rep] is not in the
    sources). *)
Context (has_pauli_rep : operand -> bool).

(** [LinearCombination._build_pauli_rep]: whether a Pauli representation is
    built.  [all] of an empty list is true, and [coeffs[0]] and
    [op_pauli_rep[0]] raise [IndexError] on an empty sequence.  The
    representation itself ([PauliSentence] is not in the sources) is read by
    none of the functions embedded here. *)
Definition build_pauli_rep (S : LinearCombination) : result bool :=
  if forallb has_pauli_rep (ops S) then
    match coeffs S, ops S with
    | _ :: _, _ :: _ => Ok true
    | _, _ => Raise IndexError
    end
  else Ok false.

(** [LinearCombination.__init__]: the grouping, when asked for, is computed
    on the store as [simplify] left it, and the Pauli representation is built
    last.  Modelled from the spec: the parameter [data] of a new store are
    its coefficients ([CompositeOp] is not in the sources). *)
Definition init (coeffs0 : list R) (ops0 : list candidate) (simplify_flag : bool)
    (grouping : option (grouping_type * method)) : result LinearCombination :=
  if negb (length coeffs0 =? length ops0)%nat then Raise ValueError
  else
    match observables ops0 with
    | None => Raise ValueError
    | Some ops1 =>
        let S0 := {| data := coeffs0; coeffs := coeffs0; ops := ops1;
                     wires := all_wires_sorted ops1; grouping_indices := None |} in
        S1 <- (if simplify_flag then simplify S0 else Ok S0) ;;
        let S2 := match grouping with
                  | Some (gt, m) => compute_grouping S1 gt m
                  | None => S1
                  end in
        pauli_rep <- build_pauli_rep S2 ;;
        Ok S2
    end.

(** Modelled from the spec: [qml.dot(coeffs, ops, simplify=...)] builds the
    linear combination of the operands, with no grouping asked for, and
    simplifies it when told to; an emptied store is not an error ([qml.dot]
    is not in the sources). *)
Definition dot (coeffs0 : list R) (ops0 : list operand) (simplify_flag : bool)
  : result LinearCombination :=
  if negb (length coeffs0 =? length ops0)%nat then Raise ValueError
  else
    let S0 := {| data := coeffs0; coeffs := coeffs0; ops := ops0;
                 wires := all_wires_sorted ops0; grouping_indices := None |} in
    if simplify_flag then simplify S0 else Ok S0.

(** What [qml.dot] does when it is called without [simplify] is not in the
    sources either: its default is taken as it comes. *)
Context (dot_simplify_default : bool).

(** *** Comparison *)

(** [LinearCombination._obs_data]: the pairs of a coefficient and the
    frozenset of its operand's factors, read as a set. *)
Definition term_data (op : operand) : gset key :=
  list_to_set (map obs_key match op with
                           | Tensor _ _ => non_identity_obs op
                           | Obs o => [o]
                           end).

Definition lc_obs_data (S : LinearCombination) : list (R * gset key) :=
  map (fun t => (t.1, term_data t.2)) (zip (coeffs S) (ops S)).

(** Equality of two Python sets given by their elements. *)
Definition set_eqb {A} `{EqDecision A} (l1 l2 : list A) : bool :=
  bool_decide (l1 ⊆ l2 ∧ l2 ⊆ l1).

(** [LinearCombination.compare]: the answer, and [self] and [other] as the
    call leaves them. *)
Definition compare (self : LinearCombination) (other : pyvalue)
  : result (bool * LinearCombination * pyvalue) :=
  match other with
  | PyStore H =>
      self' <- simplify self ;;
      H' <- simplify H ;;
      Ok (set_eqb (lc_obs_data self') (lc_obs_data H'), self', PyStore H')
  | PyOperand op =>
      self' <- simplify self ;;
      Ok (set_eqb (lc_obs_data self') [(r1, obs_data op)], self', other)
  | _ => Raise ValueError
  end.

(** *** Arithmetic *)

(** [qml.math.kron] of two coefficient vectors. *)
Definition kron_coeffs (c1 c2 : list R) : list R :=
  flat_map (fun a => map (rmul a) c2) c1.

(** [LinearCombination.__matmul__] *)
Definition matmul (self : LinearCombination) (H : pyvalue) : result retval :=
  let coeffs1 := coeffs self in
  let ops1 := ops self in
  match H with
  | PyStore H =>
      if negb (length (shared_wires (wires self) (wires H)) =? 0)%nat then Raise ValueError
      else
        let coeffs2 := coeffs H in
        let ops2 := ops H in
        let coeffs := kron_coeffs coeffs1 coeffs2 in
        let terms := flat_map (fun t0 => map (tensor2 t0) ops2) ops1 in
        S <- dot coeffs terms true ;; Ok (Returns S)
  | PyOperand H =>
      let terms := map (fun op => tensor2 op H) ops1 in
      S <- dot coeffs1 terms true ;; Ok (Returns S)
  | _ => Ok NotImplemented
  end.

(** [LinearCombination.__mul__] *)
Definition mul (self : LinearCombination) (a : pyvalue) : result retval :=
  match a with
  | PyScalar a =>
      let self_coeffs := coeffs self in
      let coeffs := map (rmul a) self_coeffs in
      S <- dot coeffs (ops self) dot_simplify_default ;; Ok (Returns S)
  | _ => Ok NotImplemented
  end.

(** [LinearCombination.__imul__]: what is handed back, and [self] afterwards. *)
Definition imul (self : LinearCombination) (a : pyvalue) : retval * LinearCombination :=
  match a with
  | PyScalar a =>
      let self' := {| coeffs := map (rmul a) (coeffs self); data := data self;
                      ops := ops self; wires := wires self;
                      grouping_indices := grouping_indices self |} in
      (Returns self', self')
  | _ => (NotImplemented, self)
  end.

(** *** Matrices *)

(** A square matrix: its dimension and its entries (read inside the
    dimension only).  Sparse and dense arrays are modelled by their
    contents. *)
Record matrix := Mat { dim : nat; entry : nat -> nat -> R }.

(** [scipy.sparse.csr_matrix((d, d))] *)
Definition zeros (d : nat) : matrix := Mat d (fun _ _ => r0).

(** [scipy.sparse.eye(d)] *)
Definition eye (d : nat) : matrix :=
  Mat d (fun i j => if (i =? j)%nat then r1 else r0).

(** [scipy.sparse.kron(A, B)] *)
Definition kron (A B : matrix) : matrix :=
  Mat (dim A * dim B)
      (fun i j => rmul (entry A (i / dim B) (j / dim B))
                       (entry B (i mod dim B) (j mod dim B))).

(** [A * coeff] *)
Definition scale (A : matrix) (c : R) : matrix :=
  Mat (dim A) (fun i j => rmul (entry A i j) c).

(** [A + B]; scipy raises [ValueError] on inconsistent shapes. *)
Definition madd (A B : matrix) : result matrix :=
  if (dim A =? dim B)%nat
  then Ok (Mat (dim A) (fun i j => radd (entry A i j) (entry B i j)))
  else Raise ValueError.

(** The rows of a matrix. *)
Definition rows (A : matrix) : list (list R) :=
  map (fun i => map (entry A i) (seq 0 (dim A))) (seq 0 (dim A)).

(** Equality of matrices: the same dimension and the same entries. *)
Definition meq (A B : matrix) : Prop :=
  dim A = dim B ∧ ∀ i j, (i < dim A)%nat → (j < dim A)%nat → entry A i j = entry B i j.

(** [o.matrix()], the observable's own matrix, is not in the sources. *)
Context (obs_matrix : observable -> matrix).

(** [op.wires.index(wire_lab)] *)
Fixpoint wire_index (w : label) (ws : list label) : option nat :=
  match ws with
  | [] => None
  | v :: rest => if decide (v = w) then Some 0%nat else S <$> wire_index w rest
  end.

(** [for o in Tensor(op).obs]: the factors' matrices, [ValueError] on a
    factor that acts on more than one wire. *)
Fixpoint factor_matrices (os : list observable) : result (list matrix) :=
  match os with
  | [] => Ok []
  | o :: rest =>
      if (1 <? length (obs_wires o))%nat then Raise ValueError
      else ms <- factor_matrices rest ;; Ok (obs_matrix o :: ms)
  end.

(** The body of [for wire_lab in wires]: the state is [mat] and [i_count]. *)
Definition walk_wire (op : operand) (obs : list matrix) (st : result (list matrix * nat))
    (wire_lab : label) : result (list matrix * nat) :=
  bind st (fun '(mat, i_count) =>
  match wire_index wire_lab (op_wires op) with
  | Some idx =>
      let mat := if (0 <? i_count)%nat then mat ++ [eye (2 ^ i_count)] else mat in
      match obs !! idx with
      | Some sp_obs => Ok (mat ++ [sp_obs], 0%nat)
      | None => Raise IndexError
      end
  | None => Ok (mat, S i_count)
  end).

(** [functools.reduce(lambda i, j: kron(i, j), mat)] *)
Definition reduce_kron (mat : list matrix) : result matrix :=
  match mat with
  | [] => Raise TypeError
  | m :: ms => Ok (fold_left kron ms m)
  end.

(** [red_mat] of one term. *)
Definition sparse_term (wires : list label) (coeff : R) (op : operand) : result matrix :=
  obs <- factor_matrices (obs op) ;;
  bind (fold_left (walk_wire op obs) wires (Ok ([], 0%nat))) (fun '(mat, i_count) =>
  let mat := if (0 <? i_count)%nat then mat ++ [eye (2 ^ i_count)] else mat in
  red <- reduce_kron mat ;;
  Ok (scale red coeff)).

(** Python's [sum(temp_mats)]: [None] stands for the integer [0] it starts
    from. *)
Definition sum_mats (temp_mats : list matrix) : result (option matrix) :=
  fold_left (fun acc m =>
               a <- acc ;;
               match a with
               | None => Ok (Some m)
               | Some a => s <- madd a m ;; Ok (Some s)
               end) temp_mats (Ok None).

(** [matrix += sum(temp_mats)] *)
Definition add_sum (acc : matrix) (temp_mats : list matrix) : result matrix :=
  s <- sum_mats temp_mats ;;
  match s with
  | None => Ok acc
  | Some s => madd acc s
  end.

(** The body of [for coeff, op in zip(coeffs, self.ops)]: the state is
    the accumulated [matrix] and [temp_mats]. *)
Definition sparse_step (wires : list label) (st : result (matrix * list matrix))
    (term : R * operand) : result (matrix * list matrix) :=
  bind st (fun '(acc, temp_mats) =>
  red_mat <- sparse_term wires term.1 term.2 ;;
  let temp_mats := temp_mats ++ [red_mat] in
  if (length temp_mats mod 100 =? 0)%nat
  then acc <- add_sum acc temp_mats ;; Ok (acc, [])
  else Ok (acc, temp_mats)).

(** [LinearCombination.sparse_matrix] *)
Definition sparse_matrix (S : LinearCombination) (wire_order : option (list label))
  : result matrix :=
  let wires := match wire_order with
               | None => wires S
               | Some wire_order => wire_order
               end in
  let n := length wires in
  bind (fold_left (sparse_step wires) (zip (data S) (ops S)) (Ok (zeros (2 ^ n), [])))
       (fun '(acc, temp_mats) => add_sum acc temp_mats).

(** Modelled from the spec: the factor of a term at a wire of the ordering,
    the matrix of the factor acting on that wire (the first one, should
    several factors act on it), or the 2x2 identity when the term does not
    act on it. *)
Definition wire_factor (op : operand) (w : label) : matrix :=
  match List.find (fun o => bool_decide (w ∈ obs_wires o)) (obs op) with
  | Some o => obs_matrix o
  | None => eye 2
  end.

(** Modelled from the spec: the matrix of one term over the wire ordering,
    [coefficient * kron(single-wire-or-identity-factor matrices ordered per
    the wire ordering)]. *)
Definition dense_term (wire_order : list label) (c : R) (op : operand) : matrix :=
  scale (fold_left kron (map (wire_factor op) wire_order) (eye 1)) c.

(** Modelled from the spec: the reduction of the term matrices by addition. *)
Definition reduce_add (d : nat) (ms : list matrix) : result matrix :=
  fold_left (fun acc m => a <- acc ;; madd a m) ms (Ok (zeros d)).

(** Modelled from the spec: [LinearCombination.matrix], whose helpers
    [qml.math.reduce_matrices] and [qml.math.expand_matrix] are not in the
    sources; together they sum the term matrices expanded to the wire
    ordering, and fail with [ValueError] when the ordering omits a wire of an
    operand.  The choice of the ordering, [wire_order or self.wires], is
    the source's. *)
Definition matrix_dense (S : LinearCombination) (wire_order : option (list label))
  : result matrix :=
  let gen := zip (coeffs S) (ops S) in
  (* wire_order = wire_order or self.wires *)
  let wire_order := match wire_order with
                    | Some (w :: ws) => w :: ws
                    | _ => wires S
                    end in
  let sum_wires := unique_wires (concat (map op_wires (ops S))) in
  if bool_decide (sum_wires ⊆ wire_order)
  then reduce_add (2 ^ length wire_order)
                  (map (fun t => dense_term wire_order t.1 t.2) gen)
  else Raise ValueError.

(** *** The simplifier as the specification words it *)

(** Structural equality of operands: equal identity keys. *)
Definition same_operand (a b : operand) : Prop := obs_data a = obs_data b.

#[local] Instance same_operand_dec a b : Decision (same_operand a b).
Proof. unfold same_operand. apply _. Defined.


(** The coefficients of the group of [op], in the order of the terms. *)
Definition group_coeffs (op : operand) (terms : list (R * operand)) : list R :=
  (filter (fun t => same_operand t.2 op) terms).*1.

(** The sum of the coefficients of a group, added up from the first on. *)
Definition sum_coeffs (cs : list R) : R :=
  match cs with
  | [] => r0
  | c :: cs' => fold_left radd cs' c
  end.



(** What a group is left with as its coefficients come in, one after the
    other: the first coefficient opens the group's term, a later one is added
    to it, and the term is deleted when that sum is close to zero. *)
Definition running_step (term : option R) (c : R) : option R :=
  match term with
  | None => Some c
  | Some x => if isclose0 (radd x c) then None else Some (radd x c)
  end.

Definition running_sum (cs : list R) : option R := fold_left running_step cs None.

(** No partial sum of two or more of the group's coefficients is close to
    zero. *)
Definition calm (cs : list R) : Prop :=
  ∀ n, (1 < n ≤ length cs)%nat → isclose0 (sum_coeffs (take n cs)) = false.

(** A store is simplified when [simplify] leaves its terms as they are. *)
Definition simplified (S : LinearCombination) : Prop :=
  simplify_terms (zip (coeffs S) (ops S)) = (coeffs S, ops S).

(** The store invariant: as many coefficients as operands, and the parameter
    data are the coefficients. *)
Definition consistent (S : LinearCombination) : Prop :=
  length (coeffs S) = length (ops S) ∧ data S = coeffs S.

(** The store [qml.dot] is handed by [S * a]: the operands of [S] with
    every coefficient multiplied by [a]. *)
Definition scaled (a : R) (S : LinearCombination) : LinearCombination :=
  {| coeffs := map (rmul a) (coeffs S); data := map (rmul a) (coeffs S);
     ops := ops S; wires := all_wires_sorted (ops S); grouping_indices := None |}.

(** The loop of [simplify] read on one list of pairs. *)
Definition step_pairs (l : list (R * operand)) (term : R * operand) : list (R * operand) :=
  match find_ind (as_tensor term.2) l.*2 with
  | Some ind =>
      match l !! ind with
      | Some (x, o) =>
          if isclose0 (radd x term.1) then delete ind l
          else <[ind := (radd x term.1, o)]> l
      | None => l
      end
  | None => l ++ [(term.1, prune (as_tensor term.2))]
  end.

(** *** The contract of the grouping helpers *)




(** *** The operands of the matrix claims *)

(** Every factor of the operand acts on one wire and has a 2x2 matrix. *)
Definition single_qubit_factors (op : operand) : Prop :=
  Forall (fun o => wires_more o = [] ∧ dim (obs_matrix o) = 2%nat) (obs op).

(** The factors of the operand act on pairwise distinct wires. *)
Definition distinct_wires (op : operand) : Prop :=
  NoDup (concat (map obs_wires (obs op))).

(** The wire ordering the assemblies work with, and its completeness: an
    ordering that is given is not empty, and every wire of an operand is in
    the ordering. *)
Definition complete_order (S : LinearCombination) (wire_order : option (list label)) : Prop :=
  wire_order ≠ Some [] ∧
  ∀ w, w ∈ concat (map op_wires (ops S)) →
       w ∈ match wire_order with None => wires S | Some wo => wo end.

(** Addition of matrices of one dimension. *)
Definition madd_total (A B : matrix) : matrix :=
  Mat (dim A) (fun i j => radd (entry A i j) (entry B i j)).

(** What the state of the walk over the wires stands for: the product of the
    blocks so far and of the pending run of identities. *)
Definition walk_value (mat : list matrix) (i_count : nat) : matrix :=
  kron (fold_left kron mat (eye 1)) (eye (2 ^ i_count)).

(** *** The grouping indices setter *)

(** [LinearCombination.grouping_indices.setter] on an iterable of iterables
    of integers: [ValueError] when an index is not in
    [range(len(self.ops))], else the value is stored as a tuple of tuples. *)
Definition set_grouping_indices (S : LinearCombination) (value : list (list Z))
  : result LinearCombination :=
  if existsb (fun i => negb (bool_decide (0 ≤ i < Z.of_nat (length (ops S)))))
             (concat value)
  then Raise ValueError
  else Ok {| coeffs := coeffs S; data := data S; ops := ops S; wires := wires S;
             grouping_indices := Some (map (map Z.to_nat) value) |}.

(** *** Addition and subtraction *)

(** What [__add__] tells apart: a [numbers.Number], a store, a Tensor or an
    Observable, anything else. *)
Inductive addend :=
| AddNumber (a : R)
| AddStore (H : LinearCombination)
| AddOperand (op : operand)
| AddOther.

(** [LinearCombination.__add__] (and [__radd__], which is the same
    function). *)
Definition add (self : LinearCombination) (H : addend) : result retval :=
  let self_ops := ops self in
  let self_coeffs := coeffs self in
  match H with
  | AddNumber a => if decide (a = r0) then Ok (Returns self) else Ok NotImplemented
  | AddStore H =>
      S <- dot (self_coeffs ++ coeffs H) (self_ops ++ ops H) true ;; Ok (Returns S)
  | AddOperand H =>
      S <- dot (self_coeffs ++ [r1]) (self_ops ++ [H]) true ;; Ok (Returns S)
  | AddOther => Ok NotImplemented
  end.

(** [LinearCombination.__iadd__]: what is handed back, and [self]
    afterwards. *)
Definition iadd (self : LinearCombination) (H : addend)
  : result (retval * LinearCombination) :=
  match H with
  | AddNumber a => if decide (a = r0) then Ok (Returns self, self) else Ok (NotImplemented, self)
  | AddStore H =>
      self' <- simplify {| coeffs := coeffs self ++ coeffs H; data := data self;
                           ops := ops self ++ ops H; wires := wires self;
                           grouping_indices := grouping_indices self |} ;;
      Ok (Returns self', self')
  | AddOperand H =>
      self' <- simplify {| coeffs := coeffs self ++ [r1]; data := data self;
                           ops := ops self ++ [H]; wires := wires self;
                           grouping_indices := grouping_indices self |} ;;
      Ok (Returns self', self')
  | AddOther => Ok (NotImplemented, self)
  end.

(** [-1 * H] and [H.__mul__(-1)] for a Tensor or an Observable
    ([Observable.__mul__] and [__rmul__]) are not in the sources. *)
Context (operand_times : operand -> R -> addend).

(** [LinearCombination.__sub__]: [self + (-1 * H)]. *)
Definition sub (self : LinearCombination) (H : pyvalue) : result retval :=
  match H with
  | PyStore H =>
      r <- mul H (PyScalar (ropp r1)) ;;
      match r with
      | Returns H' => add self (AddStore H')
      | NotImplemented => add self AddOther
      end
  | PyOperand H => add self (operand_times H (ropp r1))
  | _ => Ok NotImplemented
  end.

(** [LinearCombination.__isub__]: [self.__iadd__(H.__mul__(-1))], then
    [self] is handed back. *)
Definition isub (self : LinearCombination) (H : pyvalue)
  : result (retval * LinearCombination) :=
  match H with
  | PyStore H =>
      r <- mul H (PyScalar (ropp r1)) ;;
      st <- iadd self match r with
                      | Returns H' => AddStore H'
                      | NotImplemented => AddOther
                      end ;;
      Ok (Returns st.2, st.2)
  | PyOperand H =>
      st <- iadd self (operand_times H (ropp r1)) ;;
      Ok (Returns st.2, st.2)
  | _ => Ok (NotImplemented, self)
  end.

(** *** Flattening *)

(** [LinearCombination._flatten] *)
Definition flatten (S : LinearCombination)
  : (list R * list operand) * option (list (list nat)) :=
  ((data S, ops S), grouping_indices S).

(** [LinearCombination._unflatten]: [cls(data[0], data[1])], then the
    grouping indices of the metadata are put back. *)
Definition unflatten (data0 : list R * list operand) (metadata : option (list (list nat)))
  : result LinearCombination :=
  new_op <- init data0.1 (IsObservable <$> data0.2) false None ;;
  Ok {| coeffs := coeffs new_op; data := data new_op; ops := ops new_op;
        wires := wires new_op; grouping_indices := metadata |}.

(** *** What a store stands for *)

(** The terms of a store. *)
Definition terms_of (S : LinearCombination) : list (R * operand) :=
  zip (coeffs S) (ops S).

(** The total coefficient of the operands structurally equal to [op]. *)
Definition class_sum (op : operand) (terms : list (R * operand)) : R :=
  foldr radd r0 (group_coeffs op terms).

(** An operand is in pruned form when pruning leaves it as it is. *)
Definition pruned (op : operand) : Prop := prune (as_tensor op) = op.

(** ** Properties of the operand model *)

Lemma non_identity_obs_sound op o :
  o ∈ non_identity_obs op → is_identity o = false.
Proof.
  unfold non_identity_obs. rewrite list_elem_of_In, filter_In.
  intros [_ Hn]. by destruct (is_identity o).
Qed.

Lemma filter_all_true {A} (f : A → bool) (l : list A) :
  (∀ x, x ∈ l → f x = true) → List.filter f l = l.
Proof.
  induction l as [|a l IH]; intros Hall; [done|].
  simpl. rewrite (Hall a) by left. f_equal. apply IH. intros x Hx. apply Hall. by right.
Qed.

Lemma non_identity_obs_prune op :
  non_identity_obs (prune op) = non_identity_obs op.
Proof.
  unfold prune.
  pose proof (non_identity_obs_sound op) as Hs.
  destruct (non_identity_obs op) as [|o [|o' os]] eqn:E.
  - reflexivity.
  - unfold non_identity_obs. simpl. rewrite (Hs o) by left. reflexivity.
  - unfold non_identity_obs at 1. simpl obs.
    apply filter_all_true. intros x Hx. rewrite (Hs x Hx). reflexivity.
Qed.

Lemma obs_data_prune op : obs_data (prune op) = obs_data op.
Proof. unfold obs_data. by rewrite non_identity_obs_prune. Qed.

Lemma obs_data_as_tensor op : obs_data (as_tensor op) = obs_data op.
Proof. by destruct op. Qed.


Lemma same_operand_sym a b : same_operand a b → same_operand b a.
Proof. unfold same_operand. congruence. Qed.

Lemma same_operand_trans a b c : same_operand a b → same_operand b c → same_operand a c.
Proof. unfold same_operand. congruence. Qed.

(** ** The loop of [simplify] *)

Lemma indexed_terms_zip cs os :
  length cs = length os → indexed_terms cs os = Ok (zip cs os).
Proof.
  revert cs. induction os as [|o os IH]; intros [|c cs] Hlen; simpl in *; try done.
  rewrite IH by lia. reflexivity.
Qed.

Lemma find_ind_Some op l i :
  find_ind op l = Some i →
  ∃ o, l !! i = Some o ∧ compare_op op o = true ∧
       ∀ j o', (j < i)%nat → l !! j = Some o' → compare_op op o' = false.
Proof.
  revert i. induction l as [|a l IH]; intros i; simpl; [done|].
  destruct (compare_op op a) eqn:E.
  - intros [= <-]. exists a. split_and!; [done..|]. intros; lia.
  - destruct (find_ind op l) as [k|] eqn:F; simpl; [|done].
    intros [= <-]. destruct (IH k eq_refl) as (o & Ho & Hc & Hlt).
    exists o. split_and!; [done..|].
    intros [|j] o' Hj Ho'; simpl in Ho'; [by simplify_eq|].
    eapply Hlt; [|done]. lia.
Qed.

Lemma find_ind_None op l :
  find_ind op l = None → ∀ o, o ∈ l → compare_op op o = false.
Proof.
  induction l as [|a l IH]; simpl; intros Hf o Ho; [by apply elem_of_nil in Ho|].
  destruct (compare_op op a) eqn:E; [done|].
  destruct (find_ind op l); [done|].
  apply elem_of_cons in Ho as [->|Ho]; [done|]. by apply IH.
Qed.

Lemma delete_insert_same {A} (l : list A) i x :
  delete i (<[i:=x]> l) = delete i l.
Proof.
  revert i. induction l as [|a l IH]; intros [|i]; simpl; try done.
  by rewrite IH.
Qed.

Lemma simplify_step_pairs l term :
  simplify_step (l.*1, l.*2) term = ((step_pairs l term).*1, (step_pairs l term).*2).
Proof.
  destruct term as [c op0]. unfold simplify_step, step_pairs. simpl.
  destruct (find_ind (as_tensor op0) l.*2) as [ind|] eqn:F.
  - apply find_ind_Some in F as (o & Ho & _).
    rewrite list_lookup_fmap in Ho.
    destruct (l !! ind) as [[x o']|] eqn:L; [|done].
    unfold add_at. rewrite list_lookup_fmap, L. simpl.
    rewrite list_lookup_insert_eq by (rewrite length_fmap; by eapply lookup_lt_Some).
    destruct (isclose0 (radd x c)).
    + by rewrite delete_insert_same, !list_fmap_delete.
    + rewrite !list_fmap_insert. simpl. f_equal.
      symmetry. apply list_insert_id. by rewrite list_lookup_fmap, L.
  - by rewrite !fmap_app.
Qed.

Lemma simplify_terms_pairs terms :
  simplify_terms terms =
    ((fold_left step_pairs terms []).*1, (fold_left step_pairs terms []).*2).
Proof.
  unfold simplify_terms.
  change (@nil R, @nil operand) with ((@nil (R * operand)).*1, (@nil (R * operand)).*2).
  generalize (@nil (R * operand)) as l.
  induction terms as [|t ts IH]; intros l; cbn [fold_left]; [done|].
  rewrite simplify_step_pairs. apply IH.
Qed.

Lemma simplify_Ok S :
  length (coeffs S) = length (ops S) →
  ∃ S', simplify S = Ok S' ∧
        zip (coeffs S') (ops S') = fold_left step_pairs (zip (coeffs S) (ops S)) [] ∧
        data S' = coeffs S' ∧
        length (coeffs S') = length (ops S') ∧
        wires S' = all_wires_sorted (ops S') ∧
        grouping_indices S' = None.
Proof.
  intros Hlen. unfold simplify. rewrite indexed_terms_zip by done. simpl.
  rewrite simplify_terms_pairs.
  eexists. split; [reflexivity|]. simpl.
  split_and!; try done.
  - apply zip_fst_snd.
  - by rewrite !length_fmap.
Qed.

Lemma elem_of_insert_inv {A} (l : list A) i x y :
  y ∈ <[i:=x]> l → y = x ∨ y ∈ l.
Proof.
  revert i. induction l as [|a l IH]; intros [|i]; simpl; try by right.
  - intros [->|?]%elem_of_cons; [by left|]. right. by right.
  - intros [->|Hy]%elem_of_cons; [right; by left|].
    destruct (IH _ Hy) as [?|?]; [by left|]. right. by right.
Qed.

Lemma step_pairs_elem l term c o :
  (c, o) ∈ step_pairs l term →
  (c, o) ∈ l ∨ isclose0 c = false ∨ (c, o) = (term.1, prune (as_tensor term.2)).
Proof.
  unfold step_pairs.
  destruct (find_ind (as_tensor term.2) l.*2) as [ind|].
  - destruct (l !! ind) as [[x o']|] eqn:L; [|by left].
    destruct (isclose0 (radd x term.1)) eqn:E.
    + intros Hin. left. by eapply list_elem_of_delete_inv.
    + intros Hin. apply elem_of_insert_inv in Hin as [Heq|Hin].
      * right. left. by simplify_eq.
      * by left.
  - intros Hin. apply elem_of_app in Hin as [Hin|Hin]; [by left|].
    apply list_elem_of_singleton in Hin. by right; right.
Qed.

(** Every entry the loop holds is either away from zero or the untouched
    coefficient of an original term on its pruned operand. *)
Lemma run_fresh_or_far terms c o :
  (c, o) ∈ fold_left step_pairs terms [] →
  isclose0 c = false ∨ ∃ op, (c, op) ∈ terms ∧ o = prune (as_tensor op).
Proof.
  revert c o. induction terms as [|t ts IH] using rev_ind; intros c o.
  - simpl. by intros ?%elem_of_nil.
  - rewrite fold_left_app. simpl. intros Hin.
    apply step_pairs_elem in Hin as [Hin|[Hfar|Heq]].
    + destruct (IH _ _ Hin) as [?|(op & Hop & ->)]; [by left|].
      right. exists op. split; [|done]. apply elem_of_app. by left.
    + by left.
    + right. exists t.2. simplify_eq. split; [|done].
      apply elem_of_app. right. destruct t. by apply list_elem_of_singleton.
Qed.

Lemma step_pairs_sublist l term (pruned : list operand) :
  sublist l.*2 pruned →
  sublist (step_pairs l term).*2 (pruned ++ [prune (as_tensor term.2)]).
Proof.
  intros Hsub. unfold step_pairs.
  destruct (find_ind (as_tensor term.2) l.*2) as [ind|].
  - apply sublist_inserts_r.
    destruct (l !! ind) as [[x o']|] eqn:L; [|done].
    destruct (isclose0 (radd x term.1)).
    + rewrite list_fmap_delete. etrans; [apply sublist_delete|done].
    + rewrite list_fmap_insert. simpl.
      rewrite list_insert_id; [done|]. by rewrite list_lookup_fmap, L.
  - rewrite fmap_app. simpl. by apply sublist_app.
Qed.

(** The operands the loop holds follow the order of the original terms. *)
Lemma run_sublist terms :
  sublist (fold_left step_pairs terms []).*2
          (map (fun t => prune (as_tensor t.2)) terms).
Proof.
  induction terms as [|t ts IH] using rev_ind; [done|].
  rewrite fold_left_app, map_app. simpl. by apply step_pairs_sublist.
Qed.

(** *** First occurrences and groups *)





Lemma group_coeffs_snoc op ts c o :
  group_coeffs op (ts ++ [(c, o)]) =
    if decide (same_operand o op) then group_coeffs op ts ++ [c] else group_coeffs op ts.
Proof.
  unfold group_coeffs. rewrite filter_app, fmap_app.
  case_decide.
  - by rewrite filter_cons_True, filter_nil.
  - by rewrite filter_cons_False, filter_nil, app_nil_r.
Qed.


Lemma group_coeffs_nil op ts :
  (∀ o, o ∈ ts.*2 → ¬ same_operand o op) → group_coeffs op ts = [].
Proof.
  induction ts as [|[c o] ts IH]; intros Hn; [done|].
  change ((c, o) :: ts) with ([(c, o)] ++ ts).
  unfold group_coeffs in *. rewrite filter_app, fmap_app, IH.
  - rewrite filter_cons_False; [done|]. simpl. apply Hn. by left.
  - intros o' Ho'. apply Hn. by right.
Qed.


Lemma sum_coeffs_snoc cs c :
  cs ≠ [] → sum_coeffs (cs ++ [c]) = radd (sum_coeffs cs) c.
Proof.
  destruct cs as [|c0 cs]; [done|]. intros _. simpl. by rewrite fold_left_app.
Qed.




(** ** The simplifier *)

Lemma zip_lookup_pair {A B} (l1 : list A) (l2 : list B) i a b :
  l1 !! i = Some a → l2 !! i = Some b → zip l1 l2 !! i = Some (a, b).
Proof. intros H1 H2. apply lookup_zip_Some. by split. Qed.

(** C6 (amended): after [simplify] a surviving coefficient that is close to
    zero is never the result of a merge: it is the coefficient of an original
    term, kept on that term's pruned operand.  The new store has as many
    coefficients as operands, so a store emptied of operands has the empty
    coefficient sequence. *)
Theorem simplify_near_zero_unmerged S :
  length (coeffs S) = length (ops S) →
  ∃ S', simplify S = Ok S' ∧
        length (coeffs S') = length (ops S') ∧
        (ops S' = [] → coeffs S' = []) ∧
        ∀ i c o, coeffs S' !! i = Some c → ops S' !! i = Some o →
                 isclose0 c = true →
                 ∃ n op, coeffs S !! n = Some c ∧ ops S !! n = Some op ∧
                         o = prune (as_tensor op).
Proof.
  intros Hlen.
  destruct (simplify_Ok S Hlen) as (S' & HS & Hzip & _ & Hlen' & _).
  exists S'. split_and!; [done..| |].
  - intros E. rewrite E in Hlen'. by destruct (coeffs S').
  - intros i c o Hc Ho Hclose.
    pose proof (zip_lookup_pair _ _ _ _ _ Hc Ho) as Hin.
    apply list_elem_of_lookup_2 in Hin. rewrite Hzip in Hin.
    apply run_fresh_or_far in Hin as [Hfar|(op & Hop & ->)]; [congruence|].
    apply list_elem_of_lookup_1 in Hop as (n & Hn).
    apply lookup_zip_Some in Hn as [Hn1 Hn2]. by exists n, op.
Qed.


(** ** Caches and arithmetic *)

(** C4: on a store with a populated grouping cache, [simplify] leaves the
    cache absent, while the in-place multiplication by an int or a float
    keeps the operands and the cache and changes the coefficients only. *)
Theorem simplify_resets_imul_keeps S g a :
  length (coeffs S) = length (ops S) →
  grouping_indices S = Some g →
  (∃ S', simplify S = Ok S' ∧ grouping_indices S' = None) ∧
  (∃ S', imul S (PyScalar a) = (Returns S', S') ∧
         ops S' = ops S ∧ grouping_indices S' = Some g ∧ wires S' = wires S ∧
         coeffs S' = map (rmul a) (coeffs S)).
Proof.
  intros Hlen Hg. split.
  - destruct (simplify_Ok S Hlen) as (S' & HS & _ & _ & _ & _ & Hg').
    by exists S'.
  - eexists. split; [reflexivity|]. by simpl.
Qed.

(** C9 (amended): [compare] simplifies both stores in place: afterwards each
    store holds its simplified terms and an absent grouping cache, and the
    answer is the equality of their simplified term data. *)
Theorem compare_simplifies_both A B :
  length (coeffs A) = length (ops A) →
  length (coeffs B) = length (ops B) →
  ∃ A' B', simplify A = Ok A' ∧ simplify B = Ok B' ∧
           compare A (PyStore B) =
             Ok (set_eqb (lc_obs_data A') (lc_obs_data B'), A', PyStore B') ∧
           grouping_indices A' = None ∧ grouping_indices B' = None.
Proof.
  intros HA HB.
  destruct (simplify_Ok A HA) as (A' & HSA & _ & _ & _ & _ & HgA).
  destruct (simplify_Ok B HB) as (B' & HSB & _ & _ & _ & _ & HgB).
  exists A', B'. split_and!; try done.
  unfold compare. by rewrite HSA, HSB.
Qed.

Lemma lookup_flat_map_product {A B C} (f : A → B → C) (la : list A) (lb : list B) i j a b :
  la !! i = Some a → lb !! j = Some b →
  flat_map (fun x => map (f x) lb) la !! (i * length lb + j)%nat = Some (f a b).
Proof.
  revert i. induction la as [|x la IH]; intros [|i] Ha Hb; simpl in *; try done.
  - simplify_eq. rewrite lookup_app_l.
    + by rewrite list_lookup_fmap, Hb.
    + rewrite length_map. by eapply lookup_lt_Some.
  - rewrite lookup_app_r by (rewrite length_map; lia).
    rewrite length_map.
    replace (length lb + i * length lb + j - length lb)%nat
      with (i * length lb + j)%nat by lia.
    by apply IH.
Qed.

Lemma length_flat_map_product {A B C} (f : A → B → C) (la : list A) (lb : list B) :
  length (flat_map (fun x => map (f x) lb) la) = (length la * length lb)%nat.
Proof.
  induction la as [|x la IH]; simpl; [done|].
  by rewrite length_app, length_map, IH.
Qed.

Lemma shared_wires_nil w1 w2 :
  shared_wires w1 w2 = [] ↔ ∀ w, w ∈ w1 → w ∉ w2.
Proof.
  unfold shared_wires. split.
  - intros Hnil w H1 H2.
    assert (w ∈ filter (λ w, w ∈ w2) w1) as Hin by (by apply list_elem_of_filter).
    rewrite Hnil in Hin. by apply elem_of_nil in Hin.
  - intros Hdis. induction w1 as [|a w1 IH]; [done|].
    rewrite filter_cons_False by (apply Hdis; by left).
    apply IH. intros w Hw. apply Hdis. by right.
Qed.

(** C5: the tensor product of two stores raises [ValueError] when they share
    a wire; on disjoint wires its coefficients are the Kronecker product of
    the two coefficient vectors and its operands all pairwise tensor
    products, the first store's terms major, and the result is simplified. *)
Theorem matmul_stores A B :
  length (coeffs A) = length (ops A) →
  length (coeffs B) = length (ops B) →
  ((∃ w, w ∈ wires A ∧ w ∈ wires B) → matmul A (PyStore B) = Raise ValueError) ∧
  ((∀ w, w ∈ wires A → w ∉ wires B) →
   let K := kron_coeffs (coeffs A) (coeffs B) in
   let T := flat_map (fun t0 => map (tensor2 t0) (ops B)) (ops A) in
   (∀ i j a b, coeffs A !! i = Some a → coeffs B !! j = Some b →
               K !! (i * length (coeffs B) + j)%nat = Some (rmul a b)) ∧
   (∀ i j x y, ops A !! i = Some x → ops B !! j = Some y →
               T !! (i * length (ops B) + j)%nat = Some (tensor2 x y)) ∧
   length K = (length (coeffs A) * length (coeffs B))%nat ∧
   length T = length K ∧
   ∃ S', simplify {| coeffs := K; data := K; ops := T;
                     wires := all_wires_sorted T; grouping_indices := None |} = Ok S' ∧
         matmul A (PyStore B) = Ok (Returns S')).
Proof.
  intros HA HB. split.
  - intros (w & H1 & H2). unfold matmul.
    destruct (shared_wires (wires A) (wires B)) as [|v l] eqn:E; [|done].
    exfalso. by eapply (proj1 (shared_wires_nil _ _) E).
  - intros Hdis K T.
    assert (length K = (length (coeffs A) * length (coeffs B))%nat) as HK.
    { apply length_flat_map_product. }
    assert (length T = length K) as HT.
    { rewrite HK. unfold T. rewrite length_flat_map_product. by rewrite HA, HB. }
    split_and!; try done.
    + intros i j a b. apply lookup_flat_map_product.
    + intros i j x y. apply lookup_flat_map_product.
    + destruct (simplify_Ok {| coeffs := K; data := K; ops := T;
                     wires := all_wires_sorted T; grouping_indices := None |})
        as (S' & HS & _); [by simpl|].
      exists S'. split; [done|].
      unfold matmul. rewrite (proj2 (shared_wires_nil _ _) Hdis).
      cbn [length Nat.eqb negb].
      unfold dot. fold K. fold T.
      rewrite HT, Nat.eqb_refl. cbn [negb]. by rewrite HS.
Qed.

(** ** Grouping indices *)

Lemma find_word_Some w l ind :
  find_word w l = Some ind →
  ∃ o, l !! ind = Some o ∧ are_identical_pauli_words w o = true.
Proof.
  revert ind. induction l as [|a l IH]; intros ind; simpl; [done|].
  destruct (are_identical_pauli_words w a) eqn:E.
  - intros [= <-]. by exists a.
  - destruct (find_word w l) as [k|]; simpl; [|done].
    intros [= <-]. by apply IH.
Qed.





Lemma place_word_prefix st w pre :
  place_word (st.1.1, st.1.2, pre ++ st.2) w =
    ((place_word st w).1.1, (place_word st w).1.2, pre ++ (place_word st w).2).
Proof.
  destruct st as [[ops avail] this]. unfold place_word. simpl.
  destruct (find_word w ops) as [ind|]; [|done].
  destruct (avail !! ind); [|done]. simpl. by rewrite app_assoc.
Qed.

Lemma place_words_prefix words st pre :
  fold_left place_word words (st.1.1, st.1.2, pre ++ st.2) =
    ((fold_left place_word words st).1.1, (fold_left place_word words st).1.2,
     pre ++ (fold_left place_word words st).2).
Proof.
  revert st. induction words as [|w ws IH]; intros st; cbn [fold_left].
  - by destruct st as [[? ?] ?].
  - rewrite place_word_prefix. apply IH.
Qed.

(** The nested loops place the words of all groups in sequence. *)
Lemma place_partitions_flat groups ops avail indices :
  let st := fold_left place_partition groups (ops, avail, indices) in
  fold_left place_word (concat groups) (ops, avail, concat indices) =
    (st.1.1, st.1.2, concat st.2).
Proof.
  revert ops avail indices. induction groups as [|g gs IH]; intros ops avail indices;
    cbn [fold_left concat]; [done|].
  rewrite fold_left_app.
  pose proof (place_words_prefix g (ops, avail, []) (concat indices)) as Hp.
  cbn [fst snd] in Hp. rewrite app_nil_r in Hp. rewrite Hp.
  destruct (fold_left place_word g (ops, avail, [])) as [[ops' avail'] this] eqn:E.
  assert (place_partition (ops, avail, indices) g = (ops', avail', indices ++ [this])) as ->.
  { unfold place_partition. by rewrite E. }
  cbn [fst snd].
  specialize (IH ops' avail' (indices ++ [this])).
  rewrite concat_app in IH. simpl in IH. rewrite app_nil_r in IH. apply IH.
Qed.

Lemma place_partitions_length groups st :
  length (fold_left place_partition groups st).2 = (length st.2 + length groups)%nat.
Proof.
  revert st. induction groups as [|g gs IH]; intros st; cbn [fold_left]; [simpl; lia|].
  rewrite IH. destruct st as [[ops avail] indices]. unfold place_partition.
  destruct (fold_left place_word g (ops, avail, [])) as [[? ?] ?].
  simpl. rewrite length_app. simpl. lia.
Qed.



(** *** Construction *)

Lemma observables_all (os : list operand) : observables (IsObservable <$> os) = Some os.
Proof. induction os as [|o os IH]; [done|]. rewrite fmap_cons. cbn [observables]. by rewrite IH. Qed.

Lemma observables_length ops0 os : observables ops0 = Some os → length os = length ops0.
Proof.
  revert os. induction ops0 as [|[op|] ops0 IH]; intros os; simpl; [by intros [= <-]| |done].
  destruct (observables ops0) as [os'|]; [|done]. intros [= <-]. simpl. by rewrite (IH os').
Qed.

Lemma build_pauli_rep_empty S : ops S = [] → build_pauli_rep S = Raise IndexError.
Proof. unfold build_pauli_rep. intros ->. simpl. by destruct (coeffs S). Qed.

Lemma build_pauli_rep_Ok S :
  length (coeffs S) = length (ops S) → ops S ≠ [] → ∃ b, build_pauli_rep S = Ok b.
Proof.
  unfold build_pauli_rep. intros Hlen Hne.
  destruct (forallb has_pauli_rep (ops S)); [|by exists false].
  destruct (coeffs S), (ops S); try done. by exists true.
Qed.

(** ** Matrix assembly *)

Section Assembly.
Hypothesis Rth : ring_theory r0 r1 radd rmul rsub ropp (@eq R).
Add Ring Rring : Rth.

Local Open Scope nat_scope.

Lemma meq_refl A : meq A A.
Proof. by split. Qed.

Lemma meq_sym A B : meq A B → meq B A.
Proof.
  intros [Hd He]. split; [done|]. intros i j Hi Hj. symmetry. apply He; by rewrite Hd.
Qed.

Lemma meq_trans A B C : meq A B → meq B C → meq A C.
Proof.
  intros [Hd1 He1] [Hd2 He2]. split; [congruence|].
  intros i j Hi Hj. rewrite He1 by done. apply He2; by rewrite <- Hd1.
Qed.

#[local] Instance meq_equivalence : Equivalence meq.
Proof. split; [exact meq_refl|exact meq_sym|exact meq_trans]. Qed.

Lemma kron_index_bounds a b i : i < a * b → i / b < a ∧ i mod b < b.
Proof.
  intros Hi. assert (b ≠ 0) by (intros ->; lia). split.
  - apply Nat.Div0.div_lt_upper_bound. lia.
  - by apply Nat.mod_upper_bound.
Qed.

Lemma kron_meq A A' B B' : meq A A' → meq B B' → meq (kron A B) (kron A' B').
Proof.
  intros [HdA HeA] [HdB HeB]. split; simpl; [congruence|].
  intros i j Hi Hj.
  destruct (kron_index_bounds _ _ _ Hi) as [Hi1 Hi2].
  destruct (kron_index_bounds _ _ _ Hj) as [Hj1 Hj2].
  rewrite <- HdB. by rewrite HeA, HeB.
Qed.

#[local] Instance kron_proper : Proper (meq ==> meq ==> meq) kron.
Proof. intros A A' HA B B' HB. by apply kron_meq. Qed.

Lemma kron_assoc A B C : meq (kron (kron A B) C) (kron A (kron B C)).
Proof.
  split; simpl; [lia|].
  intros i j Hi Hj.
  assert (dim C ≠ 0) by (intros E; rewrite E in Hi; lia).
  assert (∀ k, k / dim C / dim B = k / (dim B * dim C)) as Hdiv.
  { intros k. rewrite Nat.Div0.div_div. f_equal. lia. }
  assert (∀ k, (k mod (dim B * dim C)) / dim C = (k / dim C) mod dim B) as Hmid.
  { intros k. rewrite (Nat.mul_comm (dim B)), Nat.Div0.mod_mul_r.
    rewrite (Nat.mul_comm (dim C)), Nat.div_add by done.
    rewrite Nat.div_small; [done|]. by apply Nat.mod_upper_bound. }
  assert (∀ k, (k mod (dim B * dim C)) mod dim C = k mod dim C) as Hlow.
  { intros k. rewrite (Nat.mul_comm (dim B)), Nat.Div0.mod_mul_r.
    rewrite (Nat.mul_comm (dim C)), Nat.Div0.mod_add.
    by rewrite Nat.Div0.mod_mod. }
  rewrite !Hdiv, !Hmid, !Hlow. ring.
Qed.

Lemma kron_eye a b : meq (kron (eye a) (eye b)) (eye (a * b)).
Proof.
  split; simpl; [done|].
  intros i j Hi Hj.
  assert (b ≠ 0) by (intros ->; lia).
  pose proof (Nat.div_mod_eq i b) as Ei. pose proof (Nat.div_mod_eq j b) as Ej.
  destruct (Nat.eqb_spec i j) as [->|Hne].
  - rewrite !Nat.eqb_refl. ring.
  - destruct (Nat.eqb_spec (i / b) (j / b)) as [E1|E1];
      destruct (Nat.eqb_spec (i mod b) (j mod b)) as [E2|E2]; try ring.
    exfalso. apply Hne. rewrite Ei, Ej, E1, E2. done.
Qed.

Lemma kron_eye1_l A : meq (kron (eye 1) A) A.
Proof.
  split; cbn [dim kron eye entry]; [lia|].
  intros i j Hi Hj. rewrite !Nat.div_small, !Nat.mod_small by lia. rewrite Nat.eqb_refl. ring.
Qed.

Lemma kron_eye1_r A : meq (kron A (eye 1)) A.
Proof.
  split; cbn [dim kron eye entry]; [lia|].
  intros i j Hi Hj. rewrite !Nat.div_1_r, !Nat.mod_1_r. rewrite Nat.eqb_refl. ring.
Qed.

Lemma scale_meq A B c : meq A B → meq (scale A c) (scale B c).
Proof.
  intros [Hd He]. split; simpl; [done|]. intros i j Hi Hj. by rewrite He.
Qed.

Lemma fold_kron_meq l A A' : meq A A' → meq (fold_left kron l A) (fold_left kron l A').
Proof.
  revert A A'. induction l as [|m l IH]; intros A A' HA; simpl; [done|].
  apply IH. by rewrite HA.
Qed.

Lemma fold_kron_dim l A :
  dim (fold_left kron l A) = dim A * fold_right Nat.mul 1 (map dim l).
Proof.
  revert A. induction l as [|m l IH]; intros A; simpl; [lia|].
  rewrite IH. simpl. lia.
Qed.


Lemma madd_Ok A B : dim A = dim B → madd A B = Ok (madd_total A B).
Proof. intros Hd. unfold madd. by rewrite <- Hd, Nat.eqb_refl. Qed.

Lemma madd_total_meq A A' B B' :
  meq A A' → meq B B' → dim A = dim B → meq (madd_total A B) (madd_total A' B').
Proof.
  intros [HdA HeA] [HdB HeB] Hd. split; simpl; [done|].
  intros i j Hi Hj. rewrite HeA, HeB by (by rewrite <- ?Hd). done.
Qed.

Lemma fold_madd_dim l A : dim (fold_left madd_total l A) = dim A.
Proof. revert A. induction l as [|m l IH]; intros A; simpl; [done|]. by rewrite IH. Qed.

Lemma fold_madd_meq d l A A' :
  Forall (fun m => dim m = d) l → dim A = d → meq A A' →
  meq (fold_left madd_total l A) (fold_left madd_total l A').
Proof.
  intros Hl. revert A A'. induction Hl as [|m l Hm Hl IH]; intros A A' Hd HA; simpl; [done|].
  apply IH; [done|]. apply madd_total_meq; [done..|congruence].
Qed.

Lemma madd_fold d A ms m :
  Forall (fun m => dim m = d) ms → dim A = d → dim m = d →
  meq (madd_total A (fold_left madd_total ms m)) (fold_left madd_total ms (madd_total A m)).
Proof.
  intros Hms. revert m. induction Hms as [|x ms Hx Hms IH]; intros m HA Hm; simpl; [done|].
  rewrite IH by done.
  apply (fold_madd_meq d); [done..|].
  split; simpl; [done|]. intros i j Hi Hj. ring.
Qed.

Lemma sum_mats_from d ms a :
  Forall (fun m => dim m = d) ms → dim a = d →
  fold_left (fun acc m =>
               a <- acc ;;
               match a with
               | None => Ok (Some m)
               | Some a => s <- madd a m ;; Ok (Some s)
               end) ms (Ok (Some a)) = Ok (Some (fold_left madd_total ms a)).
Proof.
  intros Hms. revert a. induction Hms as [|m ms Hm Hms IH]; intros a Ha; simpl; [done|].
  rewrite madd_Ok by congruence. simpl. by apply IH.
Qed.

Lemma add_sum_Ok d acc temp :
  dim acc = d → Forall (fun m => dim m = d) temp →
  ∃ X, add_sum acc temp = Ok X ∧ dim X = d ∧ meq X (fold_left madd_total temp acc).
Proof.
  intros Hacc Htemp. unfold add_sum, sum_mats.
  destruct Htemp as [|m ms Hm Hms]; simpl.
  - by exists acc.
  - rewrite (sum_mats_from d) by done. simpl.
    rewrite madd_Ok by (rewrite fold_madd_dim; congruence).
    eexists. split; [reflexivity|]. split; [done|].
    by apply (madd_fold d).
Qed.

Lemma reduce_add_Ok d ms :
  Forall (fun m => dim m = d) ms →
  reduce_add d ms = Ok (fold_left madd_total ms (zeros d)).
Proof.
  intros Hms. unfold reduce_add.
  assert (dim (zeros d) = d) as Hz by done. revert Hz.
  generalize (zeros d) as a.
  induction Hms as [|m ms Hm Hms IH]; intros a Ha; simpl; [done|].
  rewrite madd_Ok by congruence. by apply IH.
Qed.

(** *** The walk over the wires of one term *)

Lemma filter_ne_id (w : label) (l : list label) : w ∉ l → filter (fun v => v ≠ w) l = l.
Proof.
  induction l as [|a l IH]; intros Hw; [done|].
  rewrite filter_cons_True.
  - f_equal. apply IH. intros ?. apply Hw. by right.
  - intros ->. apply Hw. by left.
Qed.

Lemma unique_wires_NoDup l : NoDup l → unique_wires l = l.
Proof.
  induction 1 as [|w l Hw Hl IH]; simpl; [done|].
  by rewrite IH, filter_ne_id.
Qed.

Lemma unique_wires_elem (w : label) (l : list label) : w ∈ unique_wires l ↔ w ∈ l.
Proof.
  revert w. induction l as [|a l IH]; intros w; simpl; [done|].
  rewrite !elem_of_cons, list_elem_of_filter, IH. split.
  - intros [->|[Hne Hin]]; [by left|by right].
  - intros [->|Hin]; [by left|].
    destruct (decide (w = a)) as [->|Hne]; [by left|by right].
Qed.

Lemma single_wire_concat os :
  Forall (fun o => wires_more o = [] ∧ dim (obs_matrix o) = 2) os →
  concat (map obs_wires os) = map wire0 os.
Proof.
  induction 1 as [|o os [Ho _] Hos IH]; cbn [map concat]; [done|].
  unfold obs_wires at 1. rewrite Ho. cbn [app]. by rewrite IH.
Qed.

Lemma factor_matrices_Ok os :
  Forall (fun o => wires_more o = [] ∧ dim (obs_matrix o) = 2) os →
  factor_matrices os = Ok (map obs_matrix os).
Proof.
  induction 1 as [|o os [Ho _] Hos IH]; simpl; [done|].
  rewrite Ho, IH. done.
Qed.

Lemma wire_index_find w os :
  Forall (fun o => wires_more o = [] ∧ dim (obs_matrix o) = 2) os →
  match wire_index w (map wire0 os) with
  | Some idx => ∃ o, os !! idx = Some o ∧
                     List.find (fun o => bool_decide (w ∈ obs_wires o)) os = Some o
  | None => List.find (fun o => bool_decide (w ∈ obs_wires o)) os = None
  end.
Proof.
  induction 1 as [|o os [Ho Hd] Hos IH]; cbn [map wire_index List.find]; [done|].
  assert (w ∈ obs_wires o ↔ wire0 o = w) as Hiff.
  { unfold obs_wires. rewrite Ho, list_elem_of_singleton. naive_solver. }
  destruct (decide (wire0 o = w)) as [E|E].
  - exists o. split; [done|]. rewrite bool_decide_eq_true_2; [done|]. by apply Hiff.
  - rewrite bool_decide_eq_false_2 by (by rewrite Hiff).
    destruct (wire_index w (map wire0 os)) as [idx|]; simpl; [|done].
    destruct IH as (o' & Ho' & Hf). by exists o'.
Qed.

Lemma wire_factor_dim op w :
  single_qubit_factors op → dim (wire_factor op w) = 2.
Proof.
  intros Hs. unfold wire_factor.
  destruct (List.find _ (obs op)) as [o|] eqn:F; [|done].
  apply find_some in F as [Hin _]. apply list_elem_of_In in Hin.
  unfold single_qubit_factors in Hs. rewrite Forall_forall in Hs.
  by apply Hs.
Qed.

Lemma two_pow_succ i : meq (kron (eye (2 ^ i)) (eye 2)) (eye (2 ^ S i)).
Proof.
  rewrite kron_eye. replace (2 ^ i * 2) with (2 ^ S i); [done|]. simpl. lia.
Qed.

Lemma walk_wires op ws mat i :
  single_qubit_factors op → distinct_wires op →
  ∃ mat' i',
    fold_left (walk_wire op (map obs_matrix (obs op))) ws (Ok (mat, i)) = Ok (mat', i') ∧
    meq (walk_value mat' i') (fold_left kron (map (wire_factor op) ws) (walk_value mat i)) ∧
    (ws ≠ [] ∨ mat ≠ [] ∨ 0 < i → mat' ≠ [] ∨ 0 < i').
Proof.
  intros Hs Hd.
  assert (op_wires op = map wire0 (obs op)) as Hw.
  { unfold op_wires. rewrite unique_wires_NoDup by done. by apply single_wire_concat. }
  revert mat i. induction ws as [|w ws IH]; intros mat i.
  - exists mat, i. split_and!; [done..|]. intros [?|?]; done.
  - cbn [fold_left map]. unfold walk_wire at 2. cbn [bind]. rewrite Hw.
    pose proof (wire_index_find w (obs op) Hs) as Hfind.
    destruct (wire_index w (map wire0 (obs op))) as [idx|].
    + destruct Hfind as (o & Ho & Hf).
      rewrite list_lookup_fmap, Ho. cbn [fmap option_fmap option_map].
      set (mat1 := (if 0 <? i then mat ++ [eye (2 ^ i)] else mat) ++ [obs_matrix o]).
      destruct (IH mat1 0) as (mat' & i' & Hrun & Hval & Hne).
      exists mat', i'. split_and!; [done| |].
      * rewrite Hval. apply fold_kron_meq.
        unfold wire_factor. rewrite Hf.
        unfold walk_value, mat1. rewrite fold_left_app. cbn [fold_left].
        change (2 ^ 0) with 1. rewrite kron_eye1_r.
        destruct (Nat.ltb_spec 0 i) as [Hi|Hi].
        -- rewrite fold_left_app. reflexivity.
        -- replace i with 0 by lia. change (2 ^ 0) with 1. by rewrite kron_eye1_r.
      * intros _. apply Hne. right. left. unfold mat1. by destruct (if 0 <? i then _ else _).
    + destruct (IH mat (S i)) as (mat' & i' & Hrun & Hval & Hne).
      exists mat', i'. split_and!; [done| |].
      * rewrite Hval. apply fold_kron_meq.
        unfold wire_factor. rewrite Hfind.
        unfold walk_value. rewrite <- two_pow_succ. by rewrite kron_assoc.
      * intros _. apply Hne. right. right. lia.
Qed.

Lemma walk_value_nil : meq (walk_value [] 0) (eye 1).
Proof. unfold walk_value. simpl. apply kron_eye1_r. Qed.

Lemma dense_term_dim wo c op :
  single_qubit_factors op → dim (dense_term wo c op) = 2 ^ length wo.
Proof.
  intros Hs. unfold dense_term. cbn [scale dim]. rewrite fold_kron_dim.
  cbn [eye dim]. rewrite Nat.mul_1_l.
  induction wo as [|w wo IH]; cbn [map fold_right length]; [done|].
  rewrite IH, wire_factor_dim by done. simpl. lia.
Qed.

(** One term: the sparse blocks multiply to the dense term. *)
Lemma sparse_term_dense wo c op :
  single_qubit_factors op → distinct_wires op → wo ≠ [] →
  ∃ M, sparse_term wo c op = Ok M ∧ meq M (dense_term wo c op).
Proof.
  intros Hs Hd Hwo. unfold sparse_term.
  rewrite factor_matrices_Ok by done. cbn [bind].
  destruct (walk_wires op wo [] 0 Hs Hd) as (mat & i & Hrun & Hval & Hne).
  rewrite Hrun. cbn [bind].
  set (mat_f := if 0 <? i then mat ++ [eye (2 ^ i)] else mat).
  assert (meq (fold_left kron mat_f (eye 1)) (walk_value mat i)) as Hf.
  { unfold mat_f, walk_value. destruct (Nat.ltb_spec 0 i) as [Hi|Hi].
    - by rewrite fold_left_app.
    - replace i with 0 by lia. change (2 ^ 0) with 1. by rewrite kron_eye1_r. }
  assert (mat_f ≠ []) as Hnil.
  { unfold mat_f. destruct (Hne (or_introl Hwo)) as [Hm|Hi].
    - destruct (0 <? i); [by destruct mat|done].
    - apply Nat.ltb_lt in Hi. rewrite Hi. by destruct mat. }
  destruct mat_f as [|m ms]; [done|]. cbn [reduce_kron bind].
  eexists. split; [reflexivity|].
  unfold dense_term. apply scale_meq.
  cbn [fold_left] in Hf.
  rewrite <- (fold_kron_meq ms _ _ (kron_eye1_l m)).
  rewrite Hf, Hval. apply fold_kron_meq, walk_value_nil.
Qed.

(** *** The accumulation over the terms *)

Lemma sparse_loop wo terms acc temp :
  wo ≠ [] ∨ terms = [] →
  Forall (fun t => single_qubit_factors t.2 ∧ distinct_wires t.2) terms →
  dim acc = 2 ^ length wo →
  Forall (fun m => dim m = 2 ^ length wo) temp →
  ∃ acc' temp',
    fold_left (sparse_step wo) terms (Ok (acc, temp)) = Ok (acc', temp') ∧
    dim acc' = 2 ^ length wo ∧
    Forall (fun m => dim m = 2 ^ length wo) temp' ∧
    meq (fold_left madd_total temp' acc')
        (fold_left madd_total (map (fun t => dense_term wo t.1 t.2) terms)
                   (fold_left madd_total temp acc)).
Proof.
  intros Hwo Hterms. revert acc temp.
  induction Hterms as [|[c op] terms [Hs Hd] Hterms IH]; intros acc temp Hacc Htemp.
  - exists acc, temp. by split_and!.
  - destruct Hwo as [Hwo|?]; [|done].
    cbn [fold_left map fst snd]. unfold sparse_step at 2. cbn [bind fst snd].
    destruct (sparse_term_dense wo c op Hs Hd Hwo) as (M & HM & Hmeq).
    rewrite HM. cbn [bind].
    assert (dim M = 2 ^ length wo) as HdM.
    { destruct Hmeq as [-> _]. by apply dense_term_dim. }
    assert (Forall (fun m => dim m = 2 ^ length wo) (temp ++ [M])) as Htemp'.
    { apply Forall_app. split; [done|]. by constructor. }
    assert (meq (fold_left madd_total (temp ++ [M]) acc)
                (madd_total (fold_left madd_total temp acc) (dense_term wo c op))) as Hstep.
    { rewrite fold_left_app. cbn [fold_left].
      apply madd_total_meq; [done..|].
      rewrite fold_madd_dim. congruence. }
    destruct (length (temp ++ [M]) mod 100 =? 0).
    + destruct (add_sum_Ok _ acc (temp ++ [M]) Hacc Htemp') as (X & HX & HdX & HmX).
      rewrite HX. cbn [bind].
      destruct (IH (or_introl Hwo) X []) as (acc' & temp' & Hrun & Ha & Ht & Hm); [done..|].
      exists acc', temp'. split_and!; [done..|].
      rewrite Hm. cbn [fold_left].
      eapply (fold_madd_meq (2 ^ length wo)).
      * apply Forall_fmap. eapply Forall_impl; [exact Hterms|].
        intros [c' op'] [Hs' _]. by apply dense_term_dim.
      * done.
      * by rewrite HmX.
    + destruct (IH (or_introl Hwo) acc (temp ++ [M])) as (acc' & temp' & Hrun & Ha & Ht & Hm);
        [done..|].
      exists acc', temp'. split_and!; [done..|].
      rewrite Hm.
      eapply (fold_madd_meq (2 ^ length wo)).
      * apply Forall_fmap. eapply Forall_impl; [exact Hterms|].
        intros [c' op'] [Hs' _]. by apply dense_term_dim.
      * by rewrite fold_madd_dim.
      * done.
Qed.

Lemma obs_nonempty op : ∃ o, o ∈ obs op.
Proof. destruct op as [o|o os]; exists o; by left. Qed.

Lemma op_wires_wire0 op o : o ∈ obs op → wire0 o ∈ op_wires op.
Proof.
  intros Ho. unfold op_wires. apply unique_wires_elem.
  apply list_elem_of_In, in_concat. exists (obs_wires o). split.
  - apply in_map. by apply list_elem_of_In.
  - by left.
Qed.

(** X17: where the two assemblies agree.  For a store whose data are its
    coefficients, as many as its operands, whose operands are products of
    single-qubit factors on pairwise distinct wires, and a wire ordering that
    holds every wire of the store (and is not empty when it is given), the
    sparse assembly and the dense assembly both return and give the same
    matrix of dimension 2^W, entries being taken in a commutative ring. *)
Theorem dense_sparse_agree S wire_order :
  consistent S →
  Forall single_qubit_factors (ops S) →
  Forall distinct_wires (ops S) →
  complete_order S wire_order →
  ∃ Ms Md, sparse_matrix S wire_order = Ok Ms ∧
           matrix_dense S wire_order = Ok Md ∧
           meq Ms Md ∧
           dim Ms = 2 ^ length match wire_order with None => wires S | Some wo => wo end.
Proof.
  intros [Hlen Hdata] Hsingle Hdistinct [Hne Hcomplete].
  set (wo := match wire_order with None => wires S | Some wo => wo end) in *.
  assert (match wire_order with Some (w :: ws) => w :: ws | _ => wires S end = wo) as Hwo.
  { unfold wo. destruct wire_order as [[|w ws]|]; done. }
  set (terms := zip (coeffs S) (ops S)).
  assert (Forall (fun t => single_qubit_factors t.2 ∧ distinct_wires t.2) terms) as Hterms.
  { apply Forall_forall. intros [c op] Hin.
    apply list_elem_of_lookup_1 in Hin as (n & Hn).
    apply lookup_zip_Some in Hn as [_ Hop]. apply list_elem_of_lookup_2 in Hop.
    rewrite Forall_forall in Hsingle, Hdistinct. split; [by apply Hsingle|by apply Hdistinct]. }
  assert (wo ≠ [] ∨ terms = []) as Hwo_ne.
  { destruct (ops S) as [|op rest] eqn:E.
    - right. unfold terms. by destruct (coeffs S).
    - left. destruct (obs_nonempty op) as (o & Ho).
      assert (wire0 o ∈ wo) as Hin.
      { apply Hcomplete. simpl. apply elem_of_app. left. by apply op_wires_wire0. }
      intros E'. rewrite E' in Hin. by apply elem_of_nil in Hin. }
  destruct (sparse_loop wo terms (zeros (2 ^ length wo)) [] Hwo_ne Hterms)
    as (acc & temp & Hrun & Hacc & Htemp & Hm); [done..|].
  destruct (add_sum_Ok _ acc temp Hacc Htemp) as (X & HX & HdX & HmX).
  exists X, (fold_left madd_total (map (fun t => dense_term wo t.1 t.2) terms)
                       (zeros (2 ^ length wo))).
  split_and!.
  - unfold sparse_matrix. fold wo. rewrite Hdata. fold terms. rewrite Hrun. by cbn [bind].
  - unfold matrix_dense. rewrite Hwo. fold terms.
    rewrite bool_decide_eq_true_2.
    + apply reduce_add_Ok. apply Forall_fmap. eapply Forall_impl; [exact Hterms|].
      intros [c op] [Hs _]. by apply dense_term_dim.
    + intros w Hw. apply Hcomplete. by apply unique_wires_elem.
  - by rewrite HmX, Hm.
  - done.
Qed.

End Assembly.

(** ** More on the simplifier *)

Lemma indexed_terms_inv cs os ts :
  indexed_terms cs os = Ok ts → ts = zip cs os.
Proof.
  revert cs ts. induction os as [|o os IH]; intros [|c cs] ts; simpl; try done.
  - by intros [= <-].
  - by intros [= <-].
  - destruct (indexed_terms cs os) as [ts'|e] eqn:E; simpl; [|done].
    intros [= <-]. by rewrite (IH cs ts').
Qed.

Lemma simplify_inv S S' :
  simplify S = Ok S' →
  let l := fold_left step_pairs (zip (coeffs S) (ops S)) [] in
  S' = {| coeffs := l.*1; data := l.*1; ops := l.*2;
          wires := all_wires_sorted l.*2; grouping_indices := None |}.
Proof.
  unfold simplify. destruct (indexed_terms (coeffs S) (ops S)) as [ts|e] eqn:E; simpl; [|done].
  apply indexed_terms_inv in E as ->. rewrite simplify_terms_pairs. by intros [= <-].
Qed.

Lemma simplify_of_pairs (l : list (R * operand)) g w d :
  simplify {| coeffs := l.*1; data := d; ops := l.*2; wires := w; grouping_indices := g |} =
    Ok (let l' := fold_left step_pairs l [] in
        {| coeffs := l'.*1; data := l'.*1; ops := l'.*2;
           wires := all_wires_sorted l'.*2; grouping_indices := None |}).
Proof.
  unfold simplify. cbn [coeffs ops].
  rewrite indexed_terms_zip by (by rewrite !length_fmap).
  cbn [bind]. by rewrite zip_fst_snd, simplify_terms_pairs.
Qed.

Lemma find_ind_None_keys op l :
  find_ind op l = None → obs_data op ∉ fmap obs_data l.
Proof.
  intros Hf Hin. apply list_elem_of_fmap in Hin as (o & Heq & Ho).
  pose proof (find_ind_None _ _ Hf o Ho) as Hc.
  unfold compare_op in Hc. by rewrite bool_decide_eq_false in Hc.
Qed.

Lemma find_ind_fresh op l :
  obs_data op ∉ fmap obs_data l → find_ind op l = None.
Proof.
  induction l as [|o l IH]; intros Hn; simpl; [done|].
  unfold compare_op. rewrite bool_decide_eq_false_2.
  - rewrite IH; [done|]. intros ?. apply Hn. by right.
  - intros Heq. apply Hn. rewrite Heq. by left.
Qed.

Lemma step_pairs_keys l term :
  NoDup (fmap obs_data l.*2) → NoDup (fmap obs_data (step_pairs l term).*2).
Proof.
  intros Hnd. unfold step_pairs.
  destruct (find_ind (as_tensor term.2) l.*2) as [ind|] eqn:F.
  - destruct (l !! ind) as [[x o]|] eqn:L; [|done].
    destruct (isclose0 (radd x term.1)).
    + rewrite !list_fmap_delete. eapply sublist_NoDup; [done|apply sublist_delete].
    + rewrite list_fmap_insert. simpl.
      rewrite list_insert_id; [done|]. by rewrite list_lookup_fmap, L.
  - rewrite !fmap_app. simpl. apply NoDup_app. split_and!; [done| |apply NoDup_singleton].
    intros k Hk ->%list_elem_of_singleton.
    apply (find_ind_None_keys _ _ F). by rewrite obs_data_prune in Hk.
Qed.

Lemma prune_pruned op : pruned (prune (as_tensor op)).
Proof.
  unfold pruned.
  pose proof (non_identity_obs_sound (as_tensor op)) as Hs.
  remember (prune (as_tensor op)) as p eqn:Hp. unfold prune in Hp.
  destruct (non_identity_obs (as_tensor op)) as [|o [|o' os]] eqn:E; subst p.
  - reflexivity.
  - unfold prune, non_identity_obs. simpl. rewrite (Hs o) by left. reflexivity.
  - unfold prune. simpl as_tensor.
    assert (non_identity_obs (Tensor o (o' :: os)) = o :: o' :: os) as ->; [|done].
    unfold non_identity_obs. simpl obs. apply filter_all_true.
    intros x Hx. by rewrite (Hs x Hx).
Qed.

Lemma step_pairs_pruned l term :
  Forall (fun t => pruned t.2) l → Forall (fun t => pruned t.2) (step_pairs l term).
Proof.
  intros Hl. unfold step_pairs.
  destruct (find_ind (as_tensor term.2) l.*2) as [ind|].
  - destruct (l !! ind) as [[x o]|] eqn:L; [|done].
    destruct (isclose0 (radd x term.1)).
    + by apply Forall_delete.
    + apply Forall_insert; [done|]. simpl.
      by eapply (Forall_lookup_1 _ _ _ _ Hl L).
  - apply Forall_app. split; [done|]. constructor; [|done]. apply prune_pruned.
Qed.

Lemma run_keys_pruned terms :
  NoDup (fmap obs_data (fold_left step_pairs terms []).*2) ∧
  Forall (fun t => pruned t.2) (fold_left step_pairs terms []).
Proof.
  induction terms as [|t ts [IH1 IH2]] using rev_ind.
  - split; [constructor|done].
  - rewrite fold_left_app. simpl. split; [by apply step_pairs_keys|by apply step_pairs_pruned].
Qed.

(** A second run over terms that are pruned and pairwise structurally
    different leaves them as they are. *)
Lemma run_fixed l :
  NoDup (fmap obs_data l.*2) → Forall (fun t => pruned t.2) l →
  fold_left step_pairs l [] = l.
Proof.
  induction l as [|[c o] l IH] using rev_ind; intros Hnd Hpr; [done|].
  rewrite fold_left_app. cbn [fold_left].
  rewrite fmap_app, fmap_app in Hnd. apply NoDup_app in Hnd as (Hnd & Hfresh & _).
  apply Forall_app in Hpr as [Hpr Hlast].
  rewrite IH by done. unfold step_pairs. cbn [fst snd].
  rewrite find_ind_fresh.
  - apply Forall_inv in Hlast. simpl in Hlast. by rewrite Hlast.
  - rewrite obs_data_as_tensor. intros Hin. apply (Hfresh _ Hin). by left.
Qed.

(** X1: [simplify] is idempotent: simplifying a store that [simplify]
    returned gives the same store back. *)
Theorem simplify_idempotent S S' :
  simplify S = Ok S' → simplify S' = Ok S'.
Proof.
  intros HS. apply simplify_inv in HS. cbn zeta in HS. subst S'.
  rewrite simplify_of_pairs. cbn zeta.
  destruct (run_keys_pruned (zip (coeffs S) (ops S))) as [Hnd Hpr].
  by rewrite run_fixed.
Qed.

(** X2: after [simplify] the operands are pairwise structurally different
    (no two have the same identity key), every operand is in pruned form, and
    there are as many coefficients as operands, at most as many as there were
    operands before. *)
Theorem simplify_distinct_operands S S' :
  simplify S = Ok S' →
  NoDup (fmap obs_data (ops S')) ∧
  Forall pruned (ops S') ∧
  length (coeffs S') = length (ops S') ∧
  (length (ops S') ≤ length (ops S))%nat.
Proof.
  intros HS. apply simplify_inv in HS. cbn zeta in HS. subst S'. cbn [ops coeffs].
  destruct (run_keys_pruned (zip (coeffs S) (ops S))) as [Hnd Hpr].
  split_and!.
  - done.
  - apply Forall_fmap. eapply Forall_impl; [exact Hpr|]. by intros [c o].
  - by rewrite !length_fmap.
  - pose proof (run_sublist (zip (coeffs S) (ops S))) as Hsub.
    apply sublist_length in Hsub.
    rewrite !length_map, length_zip in Hsub. rewrite length_fmap. lia.
Qed.

Lemma obs_first_exists op : ∃ o os, obs op = o :: os.
Proof. destruct op as [o|o os]; by eexists _, _. Qed.

Lemma op_wires_elem op w :
  w ∈ op_wires op ↔ ∃ o, o ∈ obs op ∧ w ∈ obs_wires o.
Proof.
  unfold op_wires. rewrite unique_wires_elem, list_elem_of_In, in_concat. split.
  - intros (ws & Hws & Hw). apply in_map_iff in Hws as (o & <- & Ho).
    exists o. split; by apply list_elem_of_In.
  - intros (o & Ho & Hw). exists (obs_wires o). split.
    + apply in_map. by apply list_elem_of_In.
    + by apply list_elem_of_In.
Qed.

Lemma non_identity_obs_sub op o : o ∈ non_identity_obs op → o ∈ obs op.
Proof.
  unfold non_identity_obs. rewrite !list_elem_of_In, filter_In. by intros [? _].
Qed.

Lemma op_wires_prune op w : w ∈ op_wires (prune op) → w ∈ op_wires op.
Proof.
  rewrite !op_wires_elem. intros (o & Ho & Hw).
  pose proof (non_identity_obs_sub op) as Hsub.
  unfold prune in Ho. destruct (non_identity_obs op) as [|o1 [|o2 os]] eqn:E.
  - destruct (obs_first_exists op) as (o0 & os0 & Hobs). rewrite Hobs in Ho.
    simpl in Ho. apply list_elem_of_singleton in Ho as ->.
    exists o0. split; [rewrite Hobs; by left|].
    unfold obs_wires in *. simpl in Hw. apply list_elem_of_singleton in Hw as ->. by left.
  - simpl in Ho. apply list_elem_of_singleton in Ho as ->.
    exists o1. split; [|done]. apply Hsub. by left.
  - exists o. split; [|done]. by apply Hsub.
Qed.

(** X3: [simplify] never adds a wire: every wire of the simplified store
    is a wire of one of the original operands. *)
Theorem simplify_wires_subset S S' :
  simplify S = Ok S' →
  ∀ w, w ∈ wires S' → ∃ op, op ∈ ops S ∧ w ∈ op_wires op.
Proof.
  intros HS w Hw. apply simplify_inv in HS. cbn zeta in HS. subst S'. cbn [wires] in Hw.
  unfold all_wires_sorted in Hw. rewrite merge_sort_Permutation in Hw.
  apply (proj1 (unique_wires_elem _ _)) in Hw.
  apply list_elem_of_In, in_concat in Hw as (ws & Hws & Hin).
  apply in_map_iff in Hws as (o & <- & Ho).
  apply list_elem_of_In in Ho, Hin.
  pose proof (elem_of_sublist _ _ _ Ho (run_sublist (zip (coeffs S) (ops S)))) as Ho'.
  apply list_elem_of_In, in_map_iff in Ho' as ([c op] & <- & Hop).
  apply list_elem_of_In, list_elem_of_lookup_1 in Hop as (n & Hn).
  apply lookup_zip_Some in Hn as [_ Hn]. apply list_elem_of_lookup_2 in Hn.
  exists op. split; [done|].
  apply op_wires_prune in Hin. simpl in Hin. by destruct op.
Qed.

(** ** Construction, the setter and flattening *)

(** X4: the constructor raises [ValueError] exactly when the numbers of
    coefficients and operands differ or an entry of [ops] is not an
    Observable, and [IndexError] exactly when, these checks passed, it is
    left without a term (none was given, or [simplify] was asked for and
    merged them all away).  Otherwise the new store has as many coefficients
    as operands, its wires are the sorted union of the wires of its operands,
    without [simplify] it holds the given terms, and its grouping cache is
    filled only when a grouping was asked for, with the indices computed on
    the operands the store ends up with (after [simplify], when both were
    asked for). *)
Theorem init_checks_lengths cs os sf g :
  (init cs os sf g = Raise ValueError ↔ length cs ≠ length os ∨ observables os = None) ∧
  (∀ os1, length cs = length os → observables os = Some os1 →
     let S0 := {| coeffs := cs; data := cs; ops := os1;
                  wires := all_wires_sorted os1; grouping_indices := None |} in
     ∃ S1, (if sf then simplify S0 else Ok S0) = Ok S1 ∧
           (ops S1 = [] → init cs os sf g = Raise IndexError) ∧
           (ops S1 ≠ [] →
            ∃ S, init cs os sf g = Ok S ∧
                 coeffs S = coeffs S1 ∧ ops S = ops S1 ∧
                 length (coeffs S) = length (ops S) ∧
                 wires S = all_wires_sorted (ops S) ∧
                 (sf = false → coeffs S = cs ∧ ops S = os1) ∧
                 grouping_indices S =
                   (fun gm => compute_grouping_indices (ops S) gm.1 gm.2) <$> g)).
Proof.
  assert (∀ os1, length cs = length os → observables os = Some os1 →
     let S0 := {| coeffs := cs; data := cs; ops := os1;
                  wires := all_wires_sorted os1; grouping_indices := None |} in
     ∃ S1, (if sf then simplify S0 else Ok S0) = Ok S1 ∧
           length (coeffs S1) = length (ops S1) ∧
           wires S1 = all_wires_sorted (ops S1) ∧
           grouping_indices S1 = None ∧
           (sf = false → coeffs S1 = cs ∧ ops S1 = os1) ∧
           init cs os sf g =
             (let S2 := match g with
                        | Some (gt, m) => compute_grouping S1 gt m
                        | None => S1
                        end in
              pauli_rep <- build_pauli_rep S2 ;; Ok S2)) as Hrun.
  { intros os1 Hlen Hobs S0.
    assert (length (coeffs S0) = length (ops S0)) as Hlen0.
    { simpl. rewrite Hlen. symmetry. by apply observables_length. }
    assert (∃ S1, (if sf then simplify S0 else Ok S0) = Ok S1 ∧
                  length (coeffs S1) = length (ops S1) ∧
                  wires S1 = all_wires_sorted (ops S1) ∧
                  grouping_indices S1 = None ∧
                  (sf = false → coeffs S1 = cs ∧ ops S1 = os1)) as (S1 & HS1 & Hrest).
    { destruct sf.
      - destruct (simplify_Ok S0 Hlen0) as (S1 & HS & _ & _ & ? & ? & ?).
        exists S1. by split_and!.
      - exists S0. by split_and!. }
    exists S1. split; [done|]. destruct Hrest as (? & ? & ? & ?). split_and!; try done.
    unfold init. rewrite Hlen, Nat.eqb_refl, Hobs. cbn [negb]. fold S0.
    by rewrite HS1. }
  split.
  - split.
    + intros Hinit. destruct (decide (length cs = length os)) as [Hlen|]; [|by left].
      right. destruct (observables os) as [os1|] eqn:Hobs; [|done].
      destruct (Hrun os1 Hlen eq_refl) as (S1 & _ & Hl & _ & _ & _ & Heq).
      rewrite Heq in Hinit. cbn zeta in Hinit.
      unfold build_pauli_rep in Hinit.
      destruct g as [[gt m]|]; cbn [compute_grouping coeffs ops] in Hinit;
        destruct (forallb has_pauli_rep (ops S1)); try done;
        destruct (coeffs S1), (ops S1); done.
    + intros [Hne|Hobs]; unfold init.
      * apply Nat.eqb_neq in Hne. by rewrite Hne.
      * destruct (negb (length cs =? length os)%nat); [done|]. by rewrite Hobs.
  - intros os1 Hlen Hobs S0.
    destruct (Hrun os1 Hlen Hobs) as (S1 & HS1 & Hl & Hw & Hg & Hsf & Heq).
    exists S1. split; [done|]. split.
    + intros Hnil. rewrite Heq. cbn zeta.
      rewrite build_pauli_rep_empty; [done|]. by destruct g as [[gt m]|].
    + intros Hne. rewrite Heq. cbn zeta.
      set (S2 := match g with Some (gt, m) => compute_grouping S1 gt m | None => S1 end).
      assert (coeffs S2 = coeffs S1 ∧ ops S2 = ops S1 ∧ wires S2 = wires S1) as (Hc & Ho & Hw2).
      { unfold S2. by destruct g as [[gt m]|]. }
      destruct (build_pauli_rep_Ok S2) as [b Hb]; [congruence..|].
      rewrite Hb. exists S2. split_and!; try done; try congruence.
      * intros Hf. destruct (Hsf Hf). split; congruence.
      * unfold S2. destruct g as [[gt m]|]; [done|]. by simpl.
Qed.

Lemma in_range_of_nat (n : nat) (i : Z) : 0 ≤ i < Z.of_nat n → Z.of_nat (Z.to_nat i) = i.
Proof. lia. Qed.

(** X5: the setter of [grouping_indices] raises [ValueError] exactly when
    some index is outside [range(len(self.ops))]; otherwise it stores the
    value as given (the groups are not verified) and leaves the terms
    alone. *)
Theorem set_grouping_indices_range S value :
  (Forall (fun i => 0 ≤ i < Z.of_nat (length (ops S))) (concat value) →
   ∃ S' g, set_grouping_indices S value = Ok S' ∧
           grouping_indices S' = Some g ∧ map (map Z.of_nat) g = value ∧
           coeffs S' = coeffs S ∧ ops S' = ops S ∧ wires S' = wires S) ∧
  (¬ Forall (fun i => 0 ≤ i < Z.of_nat (length (ops S))) (concat value) →
   set_grouping_indices S value = Raise ValueError).
Proof.
  unfold set_grouping_indices.
  destruct (existsb _ (concat value)) eqn:E.
  - apply existsb_exists in E as (i & Hi & Hnot).
    apply negb_true_iff, bool_decide_eq_false in Hnot. split.
    + intros Hall. rewrite Forall_forall in Hall. destruct Hnot. apply Hall.
      by apply list_elem_of_In.
    + done.
  - assert (Forall (fun i => 0 ≤ i < Z.of_nat (length (ops S))) (concat value)) as Hall.
    { apply Forall_forall. intros i Hi.
      destruct (decide (0 ≤ i < Z.of_nat (length (ops S)))) as [|Hn]; [done|].
      assert (existsb (λ i, negb (bool_decide (0 ≤ i < Z.of_nat (length (ops S)))))
                      (concat value) = true) as Habs; [|congruence].
      apply existsb_exists. exists i. split; [by apply list_elem_of_In|].
      by rewrite bool_decide_eq_false_2. }
    split; [|done]. intros _.
    eexists _, _. split; [reflexivity|]. simpl. split_and!; try done.
    clear E. induction value as [|v value IH]; [done|].
    simpl in *. apply Forall_app in Hall as [Hv Hall].
    rewrite IH by done. f_equal.
    clear IH Hall. induction Hv as [|i v Hi Hv IH]; [done|].
    simpl. rewrite IH. f_equal. lia.
Qed.

(** X6: flattening and unflattening a store with at least one term, whose
    data are as many as its operands, gives back the same coefficients,
    operands and grouping cache, with the wires computed afresh; on such a
    store whose data are its coefficients and whose wires are the sorted
    union of its operands' wires the round trip is the identity.  A store
    without terms cannot be unflattened: [_unflatten] goes through the
    constructor, which raises [IndexError]; data and operands of different
    lengths make it raise [ValueError]. *)
Theorem unflatten_flatten S :
  (length (data S) = length (ops S) → ops S ≠ [] →
   unflatten (flatten S).1 (flatten S).2 =
     Ok {| coeffs := data S; data := data S; ops := ops S;
           wires := all_wires_sorted (ops S);
           grouping_indices := grouping_indices S |}) ∧
  (length (data S) = length (ops S) → ops S ≠ [] → data S = coeffs S →
   wires S = all_wires_sorted (ops S) →
   unflatten (flatten S).1 (flatten S).2 = Ok S) ∧
  (length (data S) = length (ops S) → ops S = [] →
   unflatten (flatten S).1 (flatten S).2 = Raise IndexError) ∧
  (length (data S) ≠ length (ops S) →
   unflatten (flatten S).1 (flatten S).2 = Raise ValueError).
Proof.
  assert (length (data S) = length (ops S) →
          unflatten (flatten S).1 (flatten S).2 =
            (new_op <- (pauli_rep <- build_pauli_rep
                          {| coeffs := data S; data := data S; ops := ops S;
                             wires := all_wires_sorted (ops S);
                             grouping_indices := None |} ;;
                        Ok {| coeffs := data S; data := data S; ops := ops S;
                              wires := all_wires_sorted (ops S);
                              grouping_indices := None |}) ;;
             Ok {| coeffs := coeffs new_op; data := data new_op; ops := ops new_op;
                   wires := wires new_op; grouping_indices := grouping_indices S |}))
    as Hrun.
  { intros Hlen. unfold unflatten, flatten, init. cbn [fst snd].
    by rewrite length_fmap, Hlen, Nat.eqb_refl, observables_all. }
  split_and!.
  - intros Hlen Hne. rewrite (Hrun Hlen).
    destruct (build_pauli_rep_Ok {| coeffs := data S; data := data S; ops := ops S;
                                    wires := all_wires_sorted (ops S);
                                    grouping_indices := None |}) as [b ->]; done.
  - intros Hlen Hne Hd Hw. rewrite (Hrun Hlen).
    destruct (build_pauli_rep_Ok {| coeffs := data S; data := data S; ops := ops S;
                                    wires := all_wires_sorted (ops S);
                                    grouping_indices := None |}) as [b ->]; [done..|].
    cbn [bind coeffs data ops wires]. destruct S as [c d o w g]. simpl in *. by subst.
  - intros Hlen Hnil. rewrite (Hrun Hlen). by rewrite build_pauli_rep_empty.
  - intros Hne. unfold unflatten, flatten, init. cbn [fst snd].
    rewrite length_fmap. apply Nat.eqb_neq in Hne. by rewrite Hne.
Qed.
(** ** More on the grouping indices *)

Lemma place_words_keep words st :
  length st.1.1 = length st.1.2 →
  let st' := fold_left place_word words st in
  length st'.1.1 = length st'.1.2 ∧ st'.2 ++ st'.1.2 ≡ₚ st.2 ++ st.1.2.
Proof.
  revert st. induction words as [|w ws IH]; intros [[ops avail] out] Hlen; cbn [fold_left].
  - done.
  - cbn [fst snd] in Hlen.
    assert (length (place_word (ops, avail, out) w).1.1 =
            length (place_word (ops, avail, out) w).1.2 ∧
            (place_word (ops, avail, out) w).2 ++ (place_word (ops, avail, out) w).1.2
              ≡ₚ out ++ avail) as [Hlen' Hperm].
    { unfold place_word. destruct (find_word w ops) as [ind|] eqn:F; [|done].
      destruct (avail !! ind) as [i|] eqn:Hi; [|done]. cbn [fst snd].
      destruct (find_word_Some _ _ _ F) as (o & Ho & _).
      split.
      - rewrite !length_delete by done. lia.
      - rewrite <- app_assoc. simpl. by rewrite <- (delete_Permutation avail ind i). }
    destruct (IH _ Hlen') as [Hl Hp]. split; [done|].
    cbn zeta in Hp. by rewrite Hp.
Qed.

(** X7: whatever groups [group_ops] hands back, the grouping indices never
    hold an index twice and never an index outside [range(N)], and there is
    one tuple of indices for each group. *)
Theorem grouping_indices_sound ops gt m :
  let g := compute_grouping_indices ops gt m in
  NoDup (concat g) ∧
  (∀ i, i ∈ concat g → (i < length ops)%nat) ∧
  length g = length (group_ops ops gt m).
Proof.
  cbn zeta. unfold compute_grouping_indices, remap_groups.
  pose proof (place_partitions_flat (group_ops ops gt m) ops (seq 0 (length ops)) []) as Hflat.
  cbn zeta in Hflat. simpl concat in Hflat.
  pose proof (place_words_keep (concat (group_ops ops gt m)) (ops, seq 0 (length ops), []))
    as Hkeep.
  cbn zeta in Hkeep. cbn [fst snd] in Hkeep. rewrite Hflat in Hkeep. cbn [fst snd] in Hkeep.
  destruct Hkeep as [_ Hperm]; [by rewrite length_seq|].
  simpl in Hperm.
  assert (NoDup (concat (fold_left place_partition (group_ops ops gt m)
                                   (ops, seq 0 (length ops), [])).2 ++
                 (fold_left place_partition (group_ops ops gt m)
                            (ops, seq 0 (length ops), [])).1.2)) as Hnd.
  { rewrite Hperm. apply NoDup_seq. }
  split_and!.
  - by apply NoDup_app in Hnd as [? _].
  - intros i Hi.
    assert (i ∈ seq 0 (length ops)) as Hin.
    { rewrite <- Hperm. apply elem_of_app. by left. }
    apply list_elem_of_In, in_seq in Hin. lia.
  - rewrite place_partitions_length. simpl. lia.
Qed.

(** ** More on comparison *)

Lemma set_eqb_sym {A} `{EqDecision A} (l1 l2 : list A) : set_eqb l1 l2 = set_eqb l2 l1.
Proof. unfold set_eqb. apply bool_decide_ext. split; intros [? ?]; by split. Qed.

Lemma set_eqb_refl {A} `{EqDecision A} (l : list A) : set_eqb l l = true.
Proof. unfold set_eqb. by apply bool_decide_eq_true_2. Qed.

(** X8: the answer of [compare] on two stores is symmetric, both calls
    leaving the two stores in the same state, and a store compares equal to
    a store with the same coefficients and operands. *)
Theorem compare_symmetric_reflexive A B :
  (∀ b A' B', compare A (PyStore B) = Ok (b, A', PyStore B') →
              compare B (PyStore A) = Ok (b, B', PyStore A')) ∧
  (coeffs A = coeffs B → ops A = ops B →
   ∀ b A' v, compare A (PyStore B) = Ok (b, A', v) → b = true).
Proof.
  unfold compare. split.
  - intros b A' B'.
    destruct (simplify A) as [A1|e1]; [|done].
    destruct (simplify B) as [B1|e2]; [|done]. cbn [bind].
    intros [= <- <- <-]. by rewrite set_eqb_sym.
  - intros Hc Ho b A' v.
    assert (simplify A = simplify B) as ->.
    { unfold simplify. by rewrite Hc, Ho. }
    destruct (simplify B) as [B1|e2]; [|done]. cbn [bind].
    intros [= <- _ _]. apply set_eqb_refl.
Qed.

Lemma term_data_perm o os o' os' :
  o :: os ≡ₚ o' :: os' → term_data (Tensor o os) = term_data (Tensor o' os').
Proof.
  intros Hperm. unfold term_data, non_identity_obs. cbn [obs].
  apply list_to_set_perm_L. apply Permutation_map.
  clear -Hperm. induction Hperm; simpl; try done.
  - destruct (negb (is_identity x)); [by constructor|done].
  - destruct (negb (is_identity x)), (negb (is_identity y)); try done. apply perm_swap.
  - by etrans.
Qed.

(** X9: [_obs_data] does not depend on the order of the terms nor on the
    order of the factors of a tensor: stores whose terms are permutations of
    each other have the same data as sets, and so have tensors whose factors
    are permutations of each other. *)
Theorem obs_data_order_independent S1 S2 :
  (zip (coeffs S1) (ops S1) ≡ₚ zip (coeffs S2) (ops S2) →
   set_eqb (lc_obs_data S1) (lc_obs_data S2) = true) ∧
  (∀ o os o' os', o :: os ≡ₚ o' :: os' →
                  term_data (Tensor o os) = term_data (Tensor o' os')).
Proof.
  split; [|apply term_data_perm].
  intros Hperm. unfold set_eqb, lc_obs_data. apply bool_decide_eq_true_2.
  split; intros x Hx.
  - by rewrite <- Hperm.
  - by rewrite Hperm.
Qed.

(** ** Addition *)

Lemma simplify_ext S1 S2 :
  coeffs S1 = coeffs S2 → ops S1 = ops S2 → simplify S1 = simplify S2.
Proof. intros Hc Ho. unfold simplify. by rewrite Hc, Ho. Qed.

Lemma add_stores_Ok A B :
  length (coeffs A) = length (ops A) →
  length (coeffs B) = length (ops B) →
  ∃ S', add A (AddStore B) = Ok (Returns S') ∧
        zip (coeffs S') (ops S') =
          fold_left step_pairs (zip (coeffs A) (ops A) ++ zip (coeffs B) (ops B)) [].
Proof.
  intros HA HB.
  destruct (simplify_Ok {| coeffs := coeffs A ++ coeffs B; data := coeffs A ++ coeffs B;
                           ops := ops A ++ ops B;
                           wires := all_wires_sorted (ops A ++ ops B);
                           grouping_indices := None |}) as (S' & HS & Hzip & _).
  { simpl. rewrite !length_app. lia. }
  exists S'. split.
  - unfold add, dot. rewrite !length_app, HA, HB, Nat.eqb_refl. cbn [negb].
    by rewrite HS.
  - rewrite Hzip. simpl. by rewrite zip_with_app.
Qed.

(** X10: on stores with as many coefficients as operands, [A + B] returns
    the store that [A += B] leaves in [A]: the simplified concatenation of
    the terms, with an absent grouping cache; adding an observable is adding
    the one-term store with coefficient 1. *)
Theorem add_iadd_agree A B :
  length (coeffs A) = length (ops A) →
  length (coeffs B) = length (ops B) →
  ∃ S', add A (AddStore B) = Ok (Returns S') ∧
        iadd A (AddStore B) = Ok (Returns S', S') ∧
        zip (coeffs S') (ops S') =
          fold_left step_pairs (zip (coeffs A) (ops A) ++ zip (coeffs B) (ops B)) [] ∧
        grouping_indices S' = None ∧
        ∀ op, add A (AddOperand op) =
                add A (AddStore {| coeffs := [r1]; data := [r1]; ops := [op];
                                   wires := all_wires_sorted [op];
                                   grouping_indices := None |}).
Proof.
  intros HA HB.
  set (S0 := {| coeffs := coeffs A ++ coeffs B; data := coeffs A ++ coeffs B;
                ops := ops A ++ ops B; wires := all_wires_sorted (ops A ++ ops B);
                grouping_indices := None |}).
  destruct (simplify_Ok S0) as (S' & HS & Hzip & _ & _ & _ & Hg).
  { simpl. rewrite !length_app. lia. }
  exists S'. split_and!.
  - unfold add, dot. rewrite !length_app, HA, HB, Nat.eqb_refl. cbn [negb].
    fold S0. by rewrite HS.
  - unfold iadd. erewrite (simplify_ext _ S0) by done. by rewrite HS.
  - rewrite Hzip. simpl. by rewrite zip_with_app.
  - done.
  - done.
Qed.


(** X16: the tensor product of a store with a Tensor or an Observable never
    checks the wires: on a store with as many coefficients as operands it
    always returns, also when the operand acts on a wire of the store, and
    what it returns is the simplified store of the terms [op_i @ H] with the
    coefficients of the store. *)
Theorem matmul_operand_unchecked A H0 :
  length (coeffs A) = length (ops A) →
  ∃ S', matmul A (PyOperand H0) = Ok (Returns S') ∧
        simplify {| coeffs := coeffs A; data := coeffs A;
                    ops := map (fun op => tensor2 op H0) (ops A);
                    wires := all_wires_sorted (map (fun op => tensor2 op H0) (ops A));
                    grouping_indices := None |} = Ok S' ∧
        zip (coeffs S') (ops S') =
          fold_left step_pairs
                    (zip (coeffs A) (map (fun op => tensor2 op H0) (ops A))) [] ∧
        grouping_indices S' = None.
Proof.
  intros HA.
  set (T := map (fun op => tensor2 op H0) (ops A)).
  set (S0 := {| coeffs := coeffs A; data := coeffs A; ops := T;
                wires := all_wires_sorted T; grouping_indices := None |}).
  destruct (simplify_Ok S0) as (S' & HS & Hzip & _ & _ & _ & Hg).
  { simpl. unfold T. by rewrite length_map. }
  exists S'. split_and!; [|done..].
  unfold matmul, dot. fold T. unfold T at 1.
  rewrite length_map, HA, Nat.eqb_refl. cbn [negb]. fold S0. by rewrite HS.
Qed.
(** ** What a store stands for, in exact arithmetic *)

Section Exact.
Hypothesis Rth : ring_theory r0 r1 radd rmul rsub ropp (@eq R).
Add Ring Rexact : Rth.

(** Only zero is close to zero (as for Python [int] coefficients). *)
Hypothesis isclose0_exact : ∀ x, isclose0 x = true → x = r0.

Lemma class_sum_cons op c o l :
  class_sum op ((c, o) :: l) =
    radd (if decide (same_operand o op) then c else r0) (class_sum op l).
Proof.
  unfold class_sum, group_coeffs. case_decide.
  - by rewrite filter_cons_True.
  - rewrite filter_cons_False by done. ring.
Qed.

Lemma class_sum_app op l1 l2 :
  class_sum op (l1 ++ l2) = radd (class_sum op l1) (class_sum op l2).
Proof.
  induction l1 as [|[c o] l1 IH]; simpl.
  - unfold class_sum at 2. simpl. ring.
  - rewrite !class_sum_cons, IH. ring.
Qed.

Lemma class_sum_delete op l i x o :
  l !! i = Some (x, o) →
  class_sum op l =
    radd (if decide (same_operand o op) then x else r0) (class_sum op (delete i l)).
Proof.
  revert i. induction l as [|[c o'] l IH]; intros [|i] Hl; simpl in *; try done.
  - simplify_eq. apply class_sum_cons.
  - rewrite !class_sum_cons, (IH _ Hl). ring.
Qed.

Lemma class_sum_insert op l i y o :
  (i < length l)%nat →
  class_sum op (<[i := (y, o)]> l) =
    radd (if decide (same_operand o op) then y else r0) (class_sum op (delete i l)).
Proof.
  revert i. induction l as [|[c o'] l IH]; intros [|i] Hl; simpl in *; try lia.
  - apply class_sum_cons.
  - rewrite !class_sum_cons, IH by lia. ring.
Qed.

Lemma step_pairs_class_sum op l c o0 :
  class_sum op (step_pairs l (c, o0)) =
    radd (class_sum op l) (if decide (same_operand o0 op) then c else r0).
Proof using Rth isclose0_exact.
  clear are_identical_pauli_words group_ops has_pauli_rep dot_simplify_default obs_matrix
        operand_times.
  unfold step_pairs. cbn [fst snd].
  destruct (find_ind (as_tensor o0) l.*2) as [ind|] eqn:F.
  - apply find_ind_Some in F as (o & Ho & Hcmp & _).
    rewrite list_lookup_fmap in Ho.
    destruct (l !! ind) as [[x o']|] eqn:L; [|done]. simpl in Ho. injection Ho as ->.
    unfold compare_op in Hcmp. apply bool_decide_eq_true in Hcmp.
    rewrite obs_data_as_tensor in Hcmp.
    assert (same_operand o0 op ↔ same_operand o op) as Hiff.
    { unfold same_operand. rewrite Hcmp. done. }
    rewrite (class_sum_delete op l ind x o L).
    destruct (isclose0 (radd x c)) eqn:E.
    + apply isclose0_exact in E.
      repeat case_decide; try (exfalso; tauto); try ring.
      transitivity (radd (radd x c) (class_sum op (delete ind l))); [rewrite E|]; ring.
    + rewrite class_sum_insert by (by eapply lookup_lt_Some).
      repeat case_decide; try (exfalso; tauto); ring.
  - rewrite class_sum_app, class_sum_cons.
    assert (same_operand (prune (as_tensor o0)) op ↔ same_operand o0 op) as Hiff.
    { unfold same_operand. by rewrite obs_data_prune, obs_data_as_tensor. }
    unfold class_sum at 2. simpl.
    repeat case_decide; try (exfalso; tauto); ring.
Qed.

Lemma run_class_sum op terms :
  class_sum op (fold_left step_pairs terms []) = class_sum op terms.
Proof.
  induction terms as [|[c o] ts IH] using rev_ind; [done|].
  rewrite fold_left_app. cbn [fold_left].
  rewrite step_pairs_class_sum, IH, class_sum_app, class_sum_cons.
  unfold class_sum at 3. simpl. ring.
Qed.

Lemma scaled_class_sum op a cs os :
  class_sum op (zip (map (rmul a) cs) os) = rmul a (class_sum op (zip cs os)).
Proof.
  revert os. induction cs as [|c cs IH]; intros [|o os]; simpl;
    try (unfold class_sum; simpl; ring).
  rewrite !class_sum_cons, IH. case_decide; ring.
Qed.

(** X11: where only zero is close to zero, [simplify] keeps what the store
    stands for: for every operand, the coefficients of the terms structurally
    equal to it sum to the same total before and after. *)
Theorem simplify_preserves_class_sums S S' :
  simplify S = Ok S' →
  ∀ op, class_sum op (terms_of S') = class_sum op (terms_of S).
Proof.
  intros HS op. apply simplify_inv in HS. cbn zeta in HS. subst S'.
  unfold terms_of. cbn [coeffs ops]. by rewrite zip_fst_snd, run_class_sum.
Qed.

Lemma mul_class_sum S a :
  length (coeffs S) = length (ops S) →
  ∃ S', mul S (PyScalar a) = Ok (Returns S') ∧
        length (coeffs S') = length (ops S') ∧
        ∀ op, class_sum op (terms_of S') = rmul a (class_sum op (terms_of S)).
Proof.
  intros Hlen. unfold mul, dot. rewrite length_map, Hlen, Nat.eqb_refl. cbn [negb].
  destruct dot_simplify_default.
  - destruct (simplify_Ok {| coeffs := map (rmul a) (coeffs S);
                             data := map (rmul a) (coeffs S); ops := ops S;
                             wires := all_wires_sorted (ops S);
                             grouping_indices := None |})
      as (S' & HS & Hzip & _ & Hlen' & _).
    { simpl. by rewrite length_map. }
    rewrite HS. exists S'. split_and!; [done..|].
    intros op. unfold terms_of. rewrite Hzip. cbn [coeffs ops].
    by rewrite run_class_sum, scaled_class_sum.
  - eexists. split; [reflexivity|]. cbn [coeffs ops]. split.
    + by rewrite length_map.
    + intros op. unfold terms_of. cbn [coeffs ops]. by rewrite scaled_class_sum.
Qed.

(** X12: where only zero is close to zero, the arithmetic on stores is the
    arithmetic on what they stand for: [A + B], [A * a] and [A - B] return
    stores in which the total coefficient of every operand is the sum, the
    multiple and the difference of the totals of the arguments. *)
Theorem arithmetic_class_sums A B a :
  length (coeffs A) = length (ops A) →
  length (coeffs B) = length (ops B) →
  ∃ Sadd Smul Ssub,
    add A (AddStore B) = Ok (Returns Sadd) ∧
    mul A (PyScalar a) = Ok (Returns Smul) ∧
    sub A (PyStore B) = Ok (Returns Ssub) ∧
    ∀ op, class_sum op (terms_of Sadd) =
            radd (class_sum op (terms_of A)) (class_sum op (terms_of B)) ∧
          class_sum op (terms_of Smul) = rmul a (class_sum op (terms_of A)) ∧
          class_sum op (terms_of Ssub) =
            rsub (class_sum op (terms_of A)) (class_sum op (terms_of B)).
Proof.
  intros HA HB.
  destruct (add_stores_Ok A B HA HB) as (Sadd & Hadd & Hzadd).
  destruct (mul_class_sum A a HA) as (Smul & Hmul & _ & Hsmul).
  destruct (mul_class_sum B (ropp r1) HB) as (B' & HmulB & HB' & HsB).
  destruct (add_stores_Ok A B' HA HB') as (Ssub & Hsub & Hzsub).
  exists Sadd, Smul, Ssub. split_and!; try done.
  - unfold sub. rewrite HmulB. by cbn [bind].
  - intros op. specialize (HsB op). unfold terms_of in *.
    rewrite Hzadd, Hzsub, !run_class_sum, !class_sum_app, HsB.
    split_and!; [done|apply Hsmul|ring].
Qed.

End Exact.

(** ** More on the sparse assembly *)

Lemma add_sum_dim acc temp X : add_sum acc temp = Ok X → dim X = dim acc.
Proof.
  unfold add_sum. destruct (sum_mats temp) as [[s|]|e]; cbn [bind]; [| |done].
  - unfold madd. destruct (dim acc =? dim s)%nat; [|done]. by intros [= <-].
  - by intros [= <-].
Qed.

Lemma sparse_step_Ok wo st t acc1 temp1 :
  sparse_step wo st t = Ok (acc1, temp1) →
  ∃ acc temp, st = Ok (acc, temp) ∧ dim acc1 = dim acc.
Proof.
  unfold sparse_step. destruct st as [[acc temp]|e]; cbn [bind]; [|done].
  destruct (sparse_term wo t.1 t.2) as [red|e]; cbn [bind]; [|done].
  destruct (length (temp ++ [red]) mod 100 =? 0)%nat.
  - destruct (add_sum acc (temp ++ [red])) as [X|e] eqn:E; cbn [bind]; [|done].
    intros [= <- <-]. exists acc, temp. split; [done|]. by eapply add_sum_dim.
  - intros [= <- <-]. by exists acc, temp.
Qed.

Lemma sparse_fold_Ok wo terms st acc1 temp1 :
  fold_left (sparse_step wo) terms st = Ok (acc1, temp1) →
  ∃ acc temp, st = Ok (acc, temp) ∧ dim acc1 = dim acc.
Proof.
  revert st. induction terms as [|t ts IH]; intros st; cbn [fold_left].
  - intros ->. by exists acc1, temp1.
  - intros Hf. destruct (IH _ Hf) as (acc & temp & Hst & Hd).
    destruct (sparse_step_Ok _ _ _ _ _ Hst) as (acc0 & temp0 & -> & Hd0).
    exists acc0, temp0. split; [done|]. congruence.
Qed.

(** X13: whenever [sparse_matrix] returns, the matrix has dimension [2^n]
    for the [n] wires of the ordering it was given (or of the store, when
    none was given), whatever the operands are. *)
Theorem sparse_matrix_dimension S wire_order M :
  sparse_matrix S wire_order = Ok M →
  dim M = (2 ^ length match wire_order with
                      | None => wires S
                      | Some wire_order => wire_order
                      end)%nat.
Proof.
  unfold sparse_matrix.
  set (wo := match wire_order with None => wires S | Some wo => wo end).
  destruct (fold_left (sparse_step wo) (zip (data S) (ops S)) (Ok (zeros (2 ^ length wo), [])))
    as [[acc temp]|e] eqn:E; cbn [bind]; [|done].
  intros HM. apply add_sum_dim in HM.
  destruct (sparse_fold_Ok _ _ _ _ _ E) as (acc0 & temp0 & [= <- <-] & Hd).
  rewrite HM, Hd. done.
Qed.

Lemma factor_matrices_multi os :
  Exists (fun o => wires_more o ≠ []) os → factor_matrices os = Raise ValueError.
Proof.
  induction os as [|o os IH]; intros Hex; [by apply Exists_nil in Hex|].
  simpl. destruct (wires_more o) as [|w ws] eqn:E; simpl.
  - apply Exists_cons in Hex as [Hh|Ht]; [by rewrite E in Hh|].
    by rewrite (IH Ht).
  - done.
Qed.

Lemma factor_matrices_single os :
  Forall (fun o => wires_more o = []) os → factor_matrices os = Ok (map obs_matrix os).
Proof.
  induction 1 as [|o os Ho Hos IH]; simpl; [done|]. by rewrite Ho, IH.
Qed.

Lemma sparse_fold_Raise wo terms e :
  fold_left (sparse_step wo) terms (Raise e) = Raise e.
Proof. induction terms as [|t ts IH]; simpl; [done|]. apply IH. Qed.

(** X14: a store with a term one of whose factors acts on more than one
    wire is never given a sparse matrix: [sparse_matrix] raises, and it
    raises [ValueError] when that term is the first. *)
Theorem sparse_matrix_multi_wire_factor S wire_order c op :
  (c, op) ∈ zip (data S) (ops S) →
  Exists (fun o => wires_more o ≠ []) (obs op) →
  (∃ e, sparse_matrix S wire_order = Raise e) ∧
  (head (zip (data S) (ops S)) = Some (c, op) →
   sparse_matrix S wire_order = Raise ValueError).
Proof.
  intros Hin Hmulti. unfold sparse_matrix.
  set (wo := match wire_order with None => wires S | Some wo => wo end).
  assert (∀ st, ∃ e, sparse_step wo st (c, op) = Raise e ∧
                     ((∃ a, st = Ok a) → e = ValueError)) as Hstep.
  { intros [[acc temp]|e].
    - exists ValueError. split; [|done]. unfold sparse_step, sparse_term. cbn [bind fst snd].
      by rewrite factor_matrices_multi.
    - exists e. split; [done|]. by intros [a ?]. }
  split.
  - apply list_elem_of_split in Hin as (l1 & l2 & ->).
    rewrite fold_left_app. cbn [fold_left].
    destruct (Hstep (fold_left (sparse_step wo) l1 (Ok (zeros (2 ^ length wo), []))))
      as (e & -> & _).
    rewrite sparse_fold_Raise. by exists e.
  - destruct (zip (data S) (ops S)) as [|t ts]; [done|]. intros [= ->].
    cbn [fold_left].
    destruct (Hstep (Ok (zeros (2 ^ length wo), []))) as (e & -> & He).
    rewrite He by (by eexists). by rewrite sparse_fold_Raise.
Qed.

(** X15: over an explicitly empty wire ordering a store with at least one
    term is not given a matrix either: when the factors of its first term
    act on one wire each, [sparse_matrix] raises [TypeError] (the reduction
    of an empty list of blocks); a store without terms gets the 1x1 zero
    matrix. *)
Theorem sparse_matrix_empty_order S :
  (∀ c op rest, zip (data S) (ops S) = (c, op) :: rest →
                Forall (fun o => wires_more o = []) (obs op) →
                sparse_matrix S (Some []) = Raise TypeError) ∧
  (zip (data S) (ops S) = [] → sparse_matrix S (Some []) = Ok (zeros 1)).
Proof.
  unfold sparse_matrix. split.
  - intros c op rest -> Hsingle. cbn [fold_left].
    assert (sparse_step [] (Ok (zeros (2 ^ length (@nil label)), [])) (c, op)
            = Raise TypeError) as ->.
    { unfold sparse_step, sparse_term. cbn [bind fst snd].
      by rewrite factor_matrices_single. }
    by rewrite sparse_fold_Raise.
  - by intros ->.
Qed.


(** ** The groups of [simplify], one by one *)

Lemma filter_delete_out {A} (P : A → Prop) `{∀ x, Decision (P x)} (l : list A) i x :
  l !! i = Some x → ¬ P x → filter P (delete i l) = filter P l.
Proof.
  revert i. induction l as [|a l IH]; intros [|i] Hi Hx; simpl in *; simplify_eq.
  - by rewrite filter_cons_False.
  - rewrite !filter_cons. by rewrite (IH i).
Qed.

Lemma filter_insert_out {A} (P : A → Prop) `{∀ x, Decision (P x)} (l : list A) i x y :
  l !! i = Some x → ¬ P x → ¬ P y → filter P (<[i:=y]> l) = filter P l.
Proof.
  revert i. induction l as [|a l IH]; intros [|i] Hi Hx Hy; simpl in *; simplify_eq.
  - by rewrite !filter_cons_False.
  - rewrite !filter_cons. by rewrite (IH i).
Qed.

(** With pairwise different keys a group has one term at most. *)
Lemma group_coeffs_one op (l : list (R * operand)) x o :
  NoDup (obs_data <$> l.*2) → (x, o) ∈ l → same_operand o op → group_coeffs op l = [x].
Proof.
  intros Hnd Hin Hsame. induction l as [|[c o'] l IH]; [by apply elem_of_nil in Hin|].
  cbn [fmap list_fmap snd] in Hnd. apply NoDup_cons in Hnd as [Hfresh Hnd].
  unfold group_coeffs in *. apply elem_of_cons in Hin as [[= <- <-]|Hin].
  - rewrite filter_cons_True by done. cbn [fmap list_fmap fst]. f_equal.
    apply (group_coeffs_nil op l). intros o'' Ho'' Hs. apply Hfresh.
    unfold same_operand in *. rewrite Hsame, <- Hs.
    apply list_elem_of_fmap. by exists o''.
  - rewrite filter_cons_False; [by apply IH|].
    cbn [snd]. intros Hs. apply Hfresh.
    unfold same_operand in *. rewrite Hs, <- Hsame.
    apply list_elem_of_fmap. exists o. split; [done|].
    apply list_elem_of_fmap. by exists (x, o).
Qed.

Lemma delete_keys_fresh (l : list (R * operand)) i x o :
  NoDup (obs_data <$> l.*2) → l !! i = Some (x, o) →
  ∀ o', o' ∈ (delete i l).*2 → obs_data o' ≠ obs_data o.
Proof.
  intros Hnd Hi o' Ho' Heq.
  rewrite <- (take_drop_middle l i (x, o) Hi) in Hnd.
  rewrite !fmap_app in Hnd. cbn [fmap list_fmap snd] in Hnd.
  apply NoDup_app in Hnd as (_ & Hleft & Hnd). apply NoDup_cons in Hnd as [Hright _].
  rewrite delete_take_drop, fmap_app in Ho'.
  apply elem_of_app in Ho' as [Ho'|Ho'].
  - apply (Hleft (obs_data o')); [by apply list_elem_of_fmap; exists o'|].
    rewrite Heq. by left.
  - apply Hright. rewrite <- Heq. apply list_elem_of_fmap. by exists o'.
Qed.

(** One turn of the loop changes the group of its term only, as
    [running_step] says. *)
Lemma step_pairs_group op (l : list (R * operand)) c o :
  NoDup (obs_data <$> l.*2) →
  group_coeffs op (step_pairs l (c, o)) =
    if decide (same_operand o op)
    then option_list (running_step (head (group_coeffs op l)) c)
    else group_coeffs op l.
Proof.
  intros Hnd. unfold step_pairs. cbn [fst snd].
  destruct (find_ind (as_tensor o) l.*2) as [ind|] eqn:F.
  - apply find_ind_Some in F as (o' & Ho' & Hcmp & _).
    rewrite list_lookup_fmap in Ho'.
    destruct (l !! ind) as [[x o'']|] eqn:L; [|done].
    cbn in Ho'. injection Ho' as ->.
    assert (same_operand o' o) as Hoo.
    { unfold compare_op in Hcmp. apply bool_decide_eq_true_1 in Hcmp.
      unfold same_operand. by rewrite <- Hcmp, obs_data_as_tensor. }
    case_decide as Hsame.
    + assert (same_operand o' op) as Hs by (by eapply same_operand_trans).
      rewrite (group_coeffs_one op l x o' Hnd); [|by eapply list_elem_of_lookup_2|done].
      cbn [head running_step].
      destruct (isclose0 (radd x c)); cbn [option_list].
      * apply group_coeffs_nil. intros o2 Ho2 Hs2.
        apply (delete_keys_fresh l ind x o' Hnd L o2 Ho2).
        unfold same_operand in *. congruence.
      * apply (group_coeffs_one op _ (radd x c) o'); [| |done].
        -- rewrite list_fmap_insert. cbn [snd].
           rewrite list_insert_id; [done|]. by rewrite list_lookup_fmap, L.
        -- apply list_elem_of_lookup. exists ind.
           apply list_lookup_insert_eq. by eapply lookup_lt_Some.
    + assert (¬ same_operand o' op) as Hs.
      { intros Hs. apply Hsame. eapply same_operand_trans; [|done].
        by apply same_operand_sym. }
      unfold group_coeffs. destruct (isclose0 (radd x c)).
      * by rewrite (filter_delete_out _ l ind (x, o')).
      * by rewrite (filter_insert_out _ l ind (x, o')).
  - rewrite group_coeffs_snoc.
    assert (same_operand (prune (as_tensor o)) op ↔ same_operand o op) as Hiff.
    { unfold same_operand. by rewrite obs_data_prune, obs_data_as_tensor. }
    case_decide as Hp; case_decide as Hsame;
      [|by destruct Hsame; apply Hiff|by destruct Hp; apply Hiff|done].
    rewrite group_coeffs_nil; [done|].
    intros o' Ho' Hs. pose proof (find_ind_None _ _ F o' Ho') as Hc.
    unfold compare_op in Hc. apply bool_decide_eq_false_1 in Hc. apply Hc.
    unfold same_operand in *. rewrite obs_data_as_tensor. congruence.
Qed.

Lemma running_sum_snoc cs c : running_sum (cs ++ [c]) = running_step (running_sum cs) c.
Proof. unfold running_sum. by rewrite fold_left_app. Qed.

(** The loop treats every group on its own. *)
Lemma run_groups op (terms : list (R * operand)) :
  group_coeffs op (fold_left step_pairs terms []) =
    option_list (running_sum (group_coeffs op terms)).
Proof.
  induction terms as [|[c o] ts IH] using rev_ind; [done|].
  rewrite fold_left_app. cbn [fold_left].
  rewrite step_pairs_group by apply run_keys_pruned.
  rewrite group_coeffs_snoc. case_decide; [|done].
  rewrite running_sum_snoc, IH. by destruct (running_sum (group_coeffs op ts)).
Qed.

(** A group none of whose partial sums comes close to zero is left with the
    sum of its coefficients. *)
Lemma running_sum_calm cs : cs ≠ [] → calm cs → running_sum cs = Some (sum_coeffs cs).
Proof.
  induction cs as [|c cs IH] using rev_ind; [done|]. intros _ Hcalm.
  rewrite running_sum_snoc. destruct cs as [|c0 cs'] using rev_ind; [done|]. clear IHcs'.
  rewrite IH.
  - cbn [running_step]. rewrite <- sum_coeffs_snoc by (by destruct cs').
    specialize (Hcalm (length ((cs' ++ [c0]) ++ [c]))).
    rewrite firstn_all in Hcalm. rewrite Hcalm; [done|].
    rewrite !length_app. simpl. lia.
  - by destruct cs'.
  - intros n Hn. specialize (Hcalm n).
    rewrite take_app_le in Hcalm by lia. apply Hcalm.
    rewrite length_app. simpl. lia.
Qed.

(** C2 (amended): [simplify] leaves at most one term for each maximal group
    of terms with structurally equal operands, on the pruned operand of one
    of the original terms.  The coefficients of a group are added up in the
    order of the terms; whenever adding one brings the group's term close to
    zero the term is deleted, and the group starts again with its next
    coefficient.  A group none of whose partial sums comes close to zero is
    left with one term, the sum of all its coefficients. *)
Theorem simplify_merges_groups S :
  length (coeffs S) = length (ops S) →
  ∃ S', simplify S = Ok S' ∧
        length (coeffs S') = length (ops S') ∧
        Forall (fun o => ∃ op, op ∈ ops S ∧ o = prune (as_tensor op)) (ops S') ∧
        ∀ op, let group := group_coeffs op (zip (coeffs S) (ops S)) in
              group_coeffs op (zip (coeffs S') (ops S')) = option_list (running_sum group) ∧
              (group ≠ [] → calm group →
               group_coeffs op (zip (coeffs S') (ops S')) = [sum_coeffs group]).
Proof.
  intros Hlen.
  destruct (simplify_Ok S Hlen) as (S' & HS & Hzip & _ & Hlen' & _).
  exists S'. split_and!; [done..| |].
  - apply Forall_forall. intros o Ho.
    pose proof (run_sublist (zip (coeffs S) (ops S))) as Hsub.
    rewrite <- Hzip, snd_zip in Hsub by lia.
    apply (elem_of_sublist _ _ _ Ho) in Hsub.
    apply list_elem_of_fmap in Hsub as ([c op] & -> & Hin).
    exists op. split; [|done]. apply (elem_of_zip_r _ _ _ _ Hin).
  - intros op group. rewrite Hzip, run_groups. fold group. split; [done|].
    intros Hne Hcalm. by rewrite running_sum_calm.
Qed.

(** ** Scalar multiplication *)

(** C10 (amended): [S * a] with an int or a float hands the operands of [S],
    with every coefficient multiplied by [a], to [qml.dot] and returns the
    new store it builds: those very terms when [qml.dot] does not simplify
    on its own, their simplification when it does; either way the result
    simplifies to what the scaled terms simplify to.  With anything else
    [S * a] returns [NotImplemented]. *)
Theorem mul_scales_coefficients S :
  length (coeffs S) = length (ops S) →
  (∀ a, ∃ S' T, mul S (PyScalar a) = Ok (Returns S') ∧
                simplify (scaled a S) = Ok T ∧
                S' = (if dot_simplify_default then T else scaled a S) ∧
                simplify S' = Ok T ∧
                grouping_indices S' = None ∧
                ops (scaled a S) = ops S ∧
                length (coeffs (scaled a S)) = length (coeffs S) ∧
                ∀ i c, coeffs S !! i = Some c →
                       coeffs (scaled a S) !! i = Some (rmul a c)) ∧
  (∀ v, (∀ a, v ≠ PyScalar a) → mul S v = Ok NotImplemented).
Proof.
  intros Hlen. split.
  - intros a.
    destruct (simplify_Ok (scaled a S)) as (T & HT & _ & _ & _ & _ & Hg).
    { simpl. by rewrite length_map. }
    exists (if dot_simplify_default then T else scaled a S), T.
    split_and!; try done.
    + unfold mul, dot. rewrite length_map, Hlen, Nat.eqb_refl. cbn [negb].
      fold (scaled a S). destruct dot_simplify_default; [by rewrite HT|done].
    + destruct dot_simplify_default; [|done].
      pose proof HT as Hinv. apply simplify_inv in Hinv. cbn zeta in Hinv.
      rewrite Hinv at 1. rewrite simplify_of_pairs. cbn zeta.
      destruct (run_keys_pruned (zip (coeffs (scaled a S)) (ops (scaled a S)))) as [Hnd Hpr].
      rewrite run_fixed by done. by rewrite <- Hinv.
    + by destruct dot_simplify_default.
    + simpl. by rewrite length_map.
    + intros i c Hc. simpl. by rewrite list_lookup_fmap, Hc.
  - intros [a| | |] Hv; try done. by destruct (Hv a).
Qed.
End Store.

Arguments LinearCombination R : clear implicits.
Arguments pyvalue R : clear implicits.
Arguments retval R : clear implicits.
Arguments matrix R : clear implicits.

(** ** Stores with Python [int] coefficients *)

(** The real Pauli-like matrices over the integers. *)
Definition pauli_matrix (o : observable) : matrix Z :=
  if bool_decide (name o = "PauliX"%string) then Mat 2 (fun i j => if (i =? j)%nat then 0 else 1)
  else if bool_decide (name o = "PauliZ"%string)
       then Mat 2 (fun i j => if (i =? j)%nat then (if (i =? 0)%nat then 1 else -1) else 0)
       else eye 2.

Definition PauliX (w : label) : operand := Obs (Observable "PauliX" w [] []).
Definition PauliY (w : label) : operand := Obs (Observable "PauliY" w [] []).
Definition PauliZ (w : label) : operand := Obs (Observable "PauliZ" w [] []).
Definition Identity (w : label) : operand := Obs (Observable "Identity" w [] []).

(** The Pauli observables and the identity, and with them their tensors,
    have a Pauli representation. *)
Definition pauli_word (op : operand) : bool :=
  forallb (fun o => bool_decide (name o ∈ ["PauliX"; "PauliY"; "PauliZ"; "Identity"]%string))
          (obs op).

(** [qml.dot(coeffs, ops)] without simplification, on consistent lists. *)
Definition store (cs : list Z) (os : list operand) : LinearCombination Z :=
  {| coeffs := cs; data := cs; ops := os; wires := all_wires_sorted os;
     grouping_indices := None |}.

(** Scenario 2 of the specification. *)
Definition scenario2 : LinearCombination Z :=
  store [1; 1; -2] [PauliY 2; tensor2 (PauliX 0) (Identity 1); PauliX 0].

(** A group that sums to zero. *)
Definition cancelling : LinearCombination Z := store [1; -1] [PauliX 0; PauliX 0].

(** A single term with coefficient zero. *)
Definition zero_term : LinearCombination Z := store [0] [PauliX 0].

(** A group whose running sum passes through zero before a later term. *)
Definition through_zero : LinearCombination Z :=
  store [1; 1; -1; 1] [PauliX 0; PauliY 2; PauliX 0; PauliX 0].

(** Two like terms and a populated grouping cache. *)
Definition grouped : LinearCombination Z :=
  {| coeffs := [1; 1]; data := [1; 1]; ops := [PauliX 0; PauliX 0]; wires := [0];
     grouping_indices := Some [[0; 1]%nat] |}.

(** A tensor whose first two factors share wire 0. *)
Definition shared_wire : LinearCombination Z :=
  store [1] [tensor2 (tensor2 (PauliX 0) (PauliX 0)) (PauliZ 1)].

(** Scenario 5 of the specification, with integer entries. *)
Definition scenario5 : LinearCombination Z :=
  store [1; -3] [tensor2 (PauliZ 0) (PauliZ 1); tensor2 (PauliX 0) (PauliZ 1)].

(** A term on wires 0 and 1, to be assembled over the wire ordering [0]. *)
Definition two_wires : LinearCombination Z := store [1] [tensor2 (PauliX 0) (PauliZ 1)].

(** Three observables, two of them the same Pauli word, and their groups. *)
Definition duplicated : LinearCombination Z := store [1; 2; 3] [PauliX 0; PauliZ 0; PauliX 0].

(** Groups that hold every word as often as it occurs among the three
    observables. *)
Definition duplicated_groups (ops : list operand) (gt : grouping_type) (m : method)
  : list (list operand) := [[PauliX 0; PauliX 0]; [PauliZ 0]].


(** ** Stores with rational coefficients *)

(** Rational coefficients: [np.isclose(x, 0.0)] holds for [|x| <= 1e-8], its
    default absolute tolerance. *)
#[export] Instance Qc_numeric : Numeric Qc := {|
  r0 := 0%Qc; r1 := 1%Qc; radd := Qcplus; rmul := Qcmult; rsub := Qcminus; ropp := Qcopp;
  isclose0 := fun x => Qle_bool (Qabs (this x)) (1 # 100000000)
|}.

Definition four_billionths : Qc := Q2Qc (4 # 1000000000).
Definition five_billionths : Qc := Q2Qc (5 # 1000000000).
Definition twenty_billionths : Qc := Q2Qc (20 # 1000000000).

(** One group, two of whose partial sums are within the tolerance of zero
    (9e-9 each time), while the sum of the group is 3.8e-8. *)
Definition nearly_cancelling : LinearCombination Qc :=
  {| coeffs := [four_billionths; five_billionths; four_billionths; five_billionths;
                twenty_billionths];
     data := [four_billionths; five_billionths; four_billionths; five_billionths;
              twenty_billionths];
     ops := [PauliX 0; PauliX 0; PauliX 0; PauliX 0; PauliX 0];
     wires := [0]; grouping_indices := None |}.

Ltac decide_by_computation := apply (bool_decide_unpack _); vm_compute; exact Logic.I.

(** ** The simplifier on concrete stores *)

(** Scenario 2, from the theorem on groups: coefficient 1 on Y(2) and
    coefficient -1 on X(0) remain, the sums of the group of Y(2) and of the
    group of X(0) @ I(1) and X(0). *)
Lemma simplify_scenario2 :
  length (coeffs scenario2) = length (ops scenario2) ∧
  group_coeffs (PauliX 0) (zip (coeffs scenario2) (ops scenario2)) = [1; -2] ∧
  calm [1; -2] ∧
  ∃ S', simplify scenario2 = Ok S' ∧
        coeffs S' = [1; -1] ∧ ops S' = [PauliY 2; PauliX 0] ∧
        group_coeffs (PauliX 0) (zip (coeffs S') (ops S')) = [sum_coeffs [1; -2]].
Proof.
  assert (calm [1; -2]) as Hcalm.
  { intros [|[|[|n]]] Hn; simpl in Hn; try lia. reflexivity. }
  split; [reflexivity|]. split; [vm_compute; reflexivity|]. split; [exact Hcalm|].
  destruct (simplify_merges_groups scenario2 eq_refl) as (S' & HS & _ & _ & Hgroups).
  exists S'. destruct (Hgroups (PauliX 0)) as [_ Hsum].
  split; [exact HS|].
  split; [|split]; [| |apply Hsum; [discriminate|exact Hcalm]];
    vm_compute in HS; injection HS as <-; reflexivity.
Defined.

(** Twice the partial sum of the one group is within the tolerance of zero
    and its term is deleted: the term left has the last coefficient, 2e-8,
    where the group sums to 3.8e-8, which is not close to zero and further
    from 2e-8 than the tolerance. *)
Lemma simplify_drops_partial_sums :
  simplify nearly_cancelling =
    Ok {| coeffs := [twenty_billionths]; data := [twenty_billionths]; ops := [PauliX 0];
          wires := [0]; grouping_indices := None |} ∧
  group_coeffs (PauliX 0) (zip (coeffs nearly_cancelling) (ops nearly_cancelling)) =
    coeffs nearly_cancelling ∧
  sum_coeffs (coeffs nearly_cancelling) = Q2Qc (38 # 1000000000) ∧
  sum_coeffs (coeffs nearly_cancelling) ≠ twenty_billionths ∧
  isclose0 (sum_coeffs (coeffs nearly_cancelling)) = false ∧
  isclose0 (rsub (sum_coeffs (coeffs nearly_cancelling)) twenty_billionths) = false.
Proof.
  split; [vm_compute; reflexivity|]. split; [vm_compute; reflexivity|].
  split; [apply Qc_is_canon; vm_compute; reflexivity|].
  split; [|split; vm_compute; reflexivity].
  intros Heq. apply (f_equal this) in Heq. vm_compute in Heq. discriminate.
Qed.

Lemma simplify_near_zero_witness :
  length (coeffs zero_term) = length (ops zero_term) ∧
  ∃ S', simplify zero_term = Ok S' ∧
        length (coeffs S') = length (ops S') ∧
        (ops S' = [] → coeffs S' = []) ∧
        ∀ i c o, coeffs S' !! i = Some c → ops S' !! i = Some o →
                 isclose0 c = true →
                 ∃ n op, coeffs zero_term !! n = Some c ∧ ops zero_term !! n = Some op ∧
                         o = prune (as_tensor op).
Proof.
  split; [reflexivity|]. apply (simplify_near_zero_unmerged zero_term). reflexivity.
Defined.

(** A single term with coefficient 0 survives [simplify] with its
    coefficient, which is close to zero. *)
Lemma simplify_keeps_zero_term :
  ∃ S', simplify zero_term = Ok S' ∧ coeffs S' = [0] ∧ ops S' = [PauliX 0] ∧
        isclose0 0 = true.
Proof.
  eexists. split; [vm_compute; reflexivity|]. repeat split; reflexivity.
Qed.



(** ** Caches and arithmetic on concrete stores *)

Lemma simplify_resets_imul_keeps_witness :
  length (coeffs grouped) = length (ops grouped) ∧
  grouping_indices grouped = Some [[0; 1]%nat] ∧
  (∃ S', simplify grouped = Ok S' ∧ grouping_indices S' = None) ∧
  (∃ S', imul grouped (PyScalar 3) = (Returns S', S') ∧
         ops S' = ops grouped ∧ grouping_indices S' = Some [[0; 1]%nat] ∧
         wires S' = wires grouped ∧ coeffs S' = map (rmul 3) (coeffs grouped)).
Proof.
  split; [reflexivity|]. split; [reflexivity|].
  apply (simplify_resets_imul_keeps grouped [[0; 1]%nat] 3); reflexivity.
Defined.

Lemma compare_simplifies_both_witness :
  length (coeffs grouped) = length (ops grouped) ∧
  length (coeffs cancelling) = length (ops cancelling) ∧
  ∃ A' B', simplify grouped = Ok A' ∧ simplify cancelling = Ok B' ∧
           compare grouped (PyStore cancelling) =
             Ok (set_eqb (lc_obs_data A') (lc_obs_data B'), A', PyStore B') ∧
           grouping_indices A' = None ∧ grouping_indices B' = None.
Proof.
  split; [reflexivity|]. split; [reflexivity|].
  apply (compare_simplifies_both grouped cancelling); reflexivity.
Defined.

(** [compare] is not read-only: it leaves the first store with one merged
    term and without its grouping cache. *)
Lemma compare_mutates_store :
  ∃ A', compare grouped (PyStore (store [2] [PauliX 0])) =
          Ok (true, A', PyStore (store [2] [PauliX 0])) ∧
        coeffs A' = [2] ∧ ops A' = [PauliX 0] ∧ grouping_indices A' = None ∧
        coeffs grouped = [1; 1] ∧ ops grouped = [PauliX 0; PauliX 0] ∧
        grouping_indices grouped = Some [[0; 1]%nat].
Proof.
  eexists. split; [vm_compute; reflexivity|]. repeat split; reflexivity.
Qed.

Lemma mul_scales_coefficients_witness :
  length (coeffs grouped) = length (ops grouped) ∧
  (∃ S', mul false grouped (PyScalar 2) = Ok (Returns S') ∧
         coeffs S' = [2; 2] ∧ ops S' = [PauliX 0; PauliX 0] ∧
         simplify S' = Ok (store [4] [PauliX 0])) ∧
  (∀ v, (∀ a, v ≠ PyScalar a) → mul false grouped v = Ok NotImplemented).
Proof.
  split; [reflexivity|].
  destruct (mul_scales_coefficients false grouped eq_refl) as [Hscalar Hother].
  split; [|exact Hother].
  destruct (Hscalar 2) as (S' & T & Hmul & HT & HS' & Hsimp & _).
  exists S'. split; [exact Hmul|].
  vm_compute in HT. injection HT as <-. rewrite HS'.
  split; [|split]; vm_compute; reflexivity.
Defined.

(** [S * 2] on two like terms with coefficient 1: when [qml.dot] leaves the
    terms as they are the result is not simplified; when it simplifies them
    the result has one coefficient, 4, not the two coefficients 2 and 2 that
    correspond to those of [S]. *)
Lemma mul_not_simplified_and_scaled :
  (∃ S', mul false grouped (PyScalar 2) = Ok (Returns S') ∧
         coeffs S' = [2; 2] ∧ ops S' = [PauliX 0; PauliX 0] ∧
         ¬ simplified S') ∧
  (∃ S', mul true grouped (PyScalar 2) = Ok (Returns S') ∧
         coeffs S' = [4] ∧ ops S' = [PauliX 0] ∧
         coeffs S' ≠ map (rmul 2) (coeffs grouped)).
Proof.
  split.
  - eexists. split; [vm_compute; reflexivity|].
    split; [reflexivity|]. split; [reflexivity|].
    unfold simplified. vm_compute. discriminate.
  - eexists. split; [vm_compute; reflexivity|].
    split; [reflexivity|]. split; [reflexivity|]. vm_compute. discriminate.
Qed.

Lemma matmul_stores_witness :
  length (coeffs grouped) = length (ops grouped) ∧
  length (coeffs (store [3] [PauliZ 1])) = length (ops (store [3] [PauliZ 1])) ∧
  matmul grouped (PyStore grouped) = Raise ValueError ∧
  ∃ S', matmul grouped (PyStore (store [3] [PauliZ 1])) = Ok (Returns S') ∧
        coeffs S' = [6] ∧ ops S' = [tensor2 (PauliX 0) (PauliZ 1)].
Proof.
  split; [reflexivity|]. split; [reflexivity|]. split.
  - apply (matmul_stores grouped grouped eq_refl eq_refl).
    exists 0. split; decide_by_computation.
  - destruct (matmul_stores grouped (store [3] [PauliZ 1]) eq_refl eq_refl) as [_ Hdis].
    destruct Hdis as (_ & _ & _ & _ & S' & HS & Hm).
    + intros w Hw. change (w ∈ [0]) in Hw. apply list_elem_of_singleton in Hw as ->.
      decide_by_computation.
    + exists S'. split; [exact Hm|].
      vm_compute in HS. injection HS as <-. split; reflexivity.
Defined.

(** ** Grouping indices on a concrete store *)





(** ** Matrix assembly on concrete stores *)

Lemma scenario5_single_qubit :
  Forall (single_qubit_factors pauli_matrix) (ops scenario5).
Proof. repeat constructor. Defined.

Lemma scenario5_distinct : Forall distinct_wires (ops scenario5).
Proof. repeat constructor; decide_by_computation. Defined.

Lemma scenario5_complete : complete_order scenario5 (Some [0; 1]).
Proof.
  split; [discriminate|].
  change (concat (map op_wires (ops scenario5)) ⊆ [0; 1]). decide_by_computation.
Defined.

(** Scenario 5 with integer entries: both assemblies return the same 4x4
    matrix. *)
Lemma dense_sparse_agree_witness :
  ring_theory 0 1 Z.add Z.mul Z.sub Z.opp eq ∧
  consistent scenario5 ∧
  Forall (single_qubit_factors pauli_matrix) (ops scenario5) ∧
  Forall distinct_wires (ops scenario5) ∧
  complete_order scenario5 (Some [0; 1]) ∧
  ∃ Ms Md, sparse_matrix pauli_matrix scenario5 (Some [0; 1]) = Ok Ms ∧
           matrix_dense pauli_matrix scenario5 (Some [0; 1]) = Ok Md ∧
           meq Ms Md ∧ dim Ms = 4%nat.
Proof.
  split; [exact Zth|]. split; [by split|].
  split; [exact scenario5_single_qubit|]. split; [exact scenario5_distinct|].
  split; [exact scenario5_complete|].
  destruct (@dense_sparse_agree Z Z_numeric pauli_matrix Zth scenario5 (Some [0; 1])
              (conj eq_refl eq_refl) scenario5_single_qubit scenario5_distinct
              scenario5_complete) as (Ms & Md & Hs & Hd & Hm & Hdim).
  exists Ms, Md. split_and!; [exact Hs|exact Hd|exact Hm|exact Hdim].
Defined.

(** C1 (the code at the failing input): every factor of X(0) @ X(0) @ Z(1)
    acts on one wire, yet the sparse assembly looks the factor of wire 1 up
    at the position of wire 1 among the de-duplicated wires of the term, and
    so reads the second factor, X(0).  It returns the matrix of X on wire 0
    and X on wire 1: the factor Z(1) is passed over, the result is the matrix
    of no operator with Z on wire 1, whatever stands on wire 0, and it is not
    the matrix of the dense assembly. *)
Lemma dense_sparse_differ_on_shared_wire :
  Forall (fun o => wires_more o = []) (obs (tensor2 (tensor2 (PauliX 0) (PauliX 0)) (PauliZ 1))) ∧
  ∃ Ms Md, sparse_matrix pauli_matrix shared_wire None = Ok Ms ∧
           matrix_dense pauli_matrix shared_wire None = Ok Md ∧
           rows Ms = [[0; 0; 0; 1]; [0; 0; 1; 0]; [0; 1; 0; 0]; [1; 0; 0; 0]] ∧
           rows Ms = rows (kron (pauli_matrix (Observable "PauliX" 0 [] []))
                                (pauli_matrix (Observable "PauliX" 0 [] []))) ∧
           rows Md = [[0; 0; 1; 0]; [0; 0; 0; -1]; [1; 0; 0; 0]; [0; -1; 0; 0]] ∧
           ¬ meq Ms Md ∧
           ∀ M, ¬ meq Ms (kron M (pauli_matrix (Observable "PauliZ" 1 [] []))).
Proof.
  split; [repeat constructor|].
  eexists. eexists. split; [vm_compute; reflexivity|]. split; [vm_compute; reflexivity|].
  split; [vm_compute; reflexivity|]. split; [vm_compute; reflexivity|].
  split; [vm_compute; reflexivity|]. split.
  - intros [_ He]. specialize (He 0%nat 3%nat). vm_compute in He.
    assert (1 = 0) as Habs; [apply He; lia|discriminate].
  - intros M [_ He]. specialize (He 0%nat 3%nat).
    assert (1 = Z.mul (entry M 0%nat 1%nat) 0) as Habs.
    { apply He; vm_compute; lia. }
    rewrite Z.mul_0_r in Habs. discriminate.
Qed.

(** C8 (the code at the failing input): the sparse assembly over the wire
    ordering [0] of a term on wires 0 and 1 returns the 2x2 matrix of X: the factor on the omitted wire 1 is passed
    over and no error is raised, where the dense assembly raises
    [ValueError]. *)
Lemma sparse_matrix_ignores_omitted_wire :
  1 ∈ concat (map op_wires (ops two_wires)) ∧ (1 ∉ [0]) ∧
  matrix_dense pauli_matrix two_wires (Some [0]) = Raise ValueError ∧
  ∃ Ms, sparse_matrix pauli_matrix two_wires (Some [0]) = Ok Ms ∧
        rows Ms = [[0; 1]; [1; 0]].
Proof.
  split; [decide_by_computation|]. split; [decide_by_computation|].
  split; [vm_compute; reflexivity|].
  eexists. split; [vm_compute; reflexivity|]. vm_compute. reflexivity.
Qed.

(** ** The further properties on concrete stores *)

(** [through_zero] after [simplify]. *)
Definition through_zero_simplified : LinearCombination Z :=
  store [1; 1] [PauliY 2; PauliX 0].

(** [scenario2] after [simplify]: wire 1, which carried an identity, is
    gone. *)
Definition scenario2_simplified : LinearCombination Z :=
  store [1; -1] [PauliY 2; PauliX 0].

(** An observable on the two wires 0 and 1. *)
Definition Hermitian01 : operand := Obs (Observable "Hermitian" 0 [1] []).

Definition two_wire_factor : LinearCombination Z := store [1] [Hermitian01].

Lemma simplify_through_zero : simplify through_zero = Ok through_zero_simplified.
Proof. vm_compute. reflexivity. Defined.

Lemma simplify_scenario2_value : simplify scenario2 = Ok scenario2_simplified.
Proof. vm_compute. reflexivity. Defined.

Lemma Z_isclose0_exact : ∀ x : Z, isclose0 x = true → x = r0.
Proof. intros x Hx. by apply Z.eqb_eq in Hx. Defined.

Lemma simplify_idempotent_witness :
  simplify through_zero = Ok through_zero_simplified ∧
  simplify through_zero_simplified = Ok through_zero_simplified.
Proof.
  split; [exact simplify_through_zero|].
  exact (simplify_idempotent through_zero _ simplify_through_zero).
Defined.

Lemma simplify_distinct_operands_witness :
  simplify through_zero = Ok through_zero_simplified ∧
  NoDup (obs_data <$> ops through_zero_simplified) ∧
  Forall pruned (ops through_zero_simplified) ∧
  length (coeffs through_zero_simplified) = length (ops through_zero_simplified) ∧
  (length (ops through_zero_simplified) ≤ length (ops through_zero))%nat.
Proof.
  split; [exact simplify_through_zero|].
  exact (simplify_distinct_operands through_zero _ simplify_through_zero).
Defined.

Lemma simplify_wires_subset_witness :
  simplify scenario2 = Ok scenario2_simplified ∧
  wires scenario2 = [0; 1; 2] ∧ wires scenario2_simplified = [0; 2] ∧
  ∀ w, w ∈ wires scenario2_simplified → ∃ op, op ∈ ops scenario2 ∧ w ∈ op_wires op.
Proof.
  split; [exact simplify_scenario2_value|].
  split; [vm_compute; reflexivity|]. split; [vm_compute; reflexivity|].
  exact (simplify_wires_subset scenario2 _ simplify_scenario2_value).
Defined.

Lemma init_checks_lengths_witness :
  (init compare_op duplicated_groups pauli_word [1; 2] [IsObservable (PauliX 0)] false None
     = Raise ValueError) ∧
  (init compare_op duplicated_groups pauli_word [1; 2]
        [IsObservable (PauliX 0); NotObservable] false None = Raise ValueError) ∧
  (init compare_op duplicated_groups pauli_word [] [] false None = Raise IndexError) ∧
  (init compare_op duplicated_groups pauli_word [1; -1]
        (IsObservable <$> [PauliX 0; PauliX 0]) true None = Raise IndexError) ∧
  ∃ S, init compare_op duplicated_groups pauli_word [1; 2; 3]
            (IsObservable <$> ops duplicated) false (Some (qwc, rlf)) = Ok S ∧
       coeffs S = [1; 2; 3] ∧ ops S = ops duplicated ∧
       grouping_indices S = Some [[0; 2]; [1]]%nat.
Proof.
  split_and!.
  - apply (init_checks_lengths compare_op duplicated_groups pauli_word
             [1; 2] [IsObservable (PauliX 0)] false None).
    left. discriminate.
  - apply (init_checks_lengths compare_op duplicated_groups pauli_word
             [1; 2] [IsObservable (PauliX 0); NotObservable] false None).
    by right.
  - destruct (init_checks_lengths compare_op duplicated_groups pauli_word [] [] false None)
      as [_ Hrun].
    destruct (Hrun [] eq_refl eq_refl) as (S1 & HS1 & Hempty & _).
    apply Hempty. injection HS1 as <-. reflexivity.
  - destruct (init_checks_lengths compare_op duplicated_groups pauli_word [1; -1]
                (IsObservable <$> [PauliX 0; PauliX 0]) true None) as [_ Hrun].
    destruct (Hrun [PauliX 0; PauliX 0] eq_refl eq_refl) as (S1 & HS1 & Hempty & _).
    apply Hempty. vm_compute in HS1. injection HS1 as <-. reflexivity.
  - destruct (init_checks_lengths compare_op duplicated_groups pauli_word [1; 2; 3]
                (IsObservable <$> ops duplicated) false (Some (qwc, rlf))) as [_ Hrun].
    destruct (Hrun (ops duplicated) eq_refl eq_refl) as (S1 & HS1 & _ & Hterms).
    injection HS1 as <-.
    destruct Hterms as (S & HS & Hc & Ho & _ & _ & _ & Hg); [discriminate|].
    exists S. split; [exact HS|]. split; [exact Hc|]. split; [exact Ho|].
    rewrite Hg, Ho. vm_compute. reflexivity.
Defined.

Lemma set_grouping_indices_range_witness :
  Forall (fun i => 0 ≤ i < Z.of_nat (length (ops duplicated))) (concat [[0; 2]; [1]]) ∧
  (∃ S' g, set_grouping_indices duplicated [[0; 2]; [1]] = Ok S' ∧
           grouping_indices S' = Some g ∧ map (map Z.of_nat) g = [[0; 2]; [1]] ∧
           coeffs S' = coeffs duplicated ∧ ops S' = ops duplicated ∧
           wires S' = wires duplicated) ∧
  ¬ Forall (fun i => 0 ≤ i < Z.of_nat (length (ops duplicated))) (concat [[0; 3]]) ∧
  set_grouping_indices duplicated [[0; 3]] = Raise ValueError.
Proof.
  assert (Forall (fun i => 0 ≤ i < Z.of_nat (length (ops duplicated)))
                 (concat [[0; 2]; [1]])) as Hin.
  { repeat constructor; simpl; lia. }
  assert (¬ Forall (fun i => 0 ≤ i < Z.of_nat (length (ops duplicated)))
                   (concat [[0; 3]])) as Hout.
  { intros Hall. apply Forall_cons in Hall as [_ Hall].
    apply Forall_cons in Hall as [Hthree _]. simpl in Hthree. lia. }
  split; [exact Hin|]. split.
  - exact (proj1 (set_grouping_indices_range duplicated [[0; 2]; [1]]) Hin).
  - split; [exact Hout|].
    exact (proj2 (set_grouping_indices_range duplicated [[0; 3]]) Hout).
Defined.

Lemma unflatten_flatten_witness :
  length (data grouped) = length (ops grouped) ∧
  ops grouped ≠ [] ∧
  data grouped = coeffs grouped ∧
  wires grouped = all_wires_sorted (ops grouped) ∧
  unflatten compare_op duplicated_groups pauli_word (flatten grouped).1 (flatten grouped).2
    = Ok grouped ∧
  unflatten compare_op duplicated_groups pauli_word
            (flatten (store [] [])).1 (flatten (store [] [])).2 = Raise IndexError.
Proof.
  split; [reflexivity|]. split; [discriminate|]. split; [reflexivity|].
  assert (wires grouped = all_wires_sorted (ops grouped)) as Hw by (vm_compute; reflexivity).
  split; [exact Hw|]. split.
  - destruct (unflatten_flatten compare_op duplicated_groups pauli_word grouped)
      as (_ & Hid & _).
    apply Hid; [reflexivity|discriminate|reflexivity|exact Hw].
  - destruct (unflatten_flatten compare_op duplicated_groups pauli_word (store [] []))
      as (_ & _ & Hempty & _).
    apply Hempty; reflexivity.
Defined.

Lemma compare_simplified_value :
  compare grouped (PyStore cancelling) =
    Ok (false, store [2] [PauliX 0], PyStore (store [] [])).
Proof. vm_compute. reflexivity. Defined.

Lemma compare_symmetric_reflexive_witness :
  compare grouped (PyStore cancelling) =
    Ok (false, store [2] [PauliX 0], PyStore (store [] [])) ∧
  compare cancelling (PyStore grouped) =
    Ok (false, store [] [], PyStore (store [2] [PauliX 0])).
Proof.
  split; [exact compare_simplified_value|].
  exact (proj1 (compare_symmetric_reflexive grouped cancelling) _ _ _ compare_simplified_value).
Defined.

Lemma obs_data_order_independent_witness :
  zip (coeffs (store [1; 2] [PauliX 0; PauliZ 1])) (ops (store [1; 2] [PauliX 0; PauliZ 1]))
    ≡ₚ zip (coeffs (store [2; 1] [PauliZ 1; PauliX 0])) (ops (store [2; 1] [PauliZ 1; PauliX 0])) ∧
  set_eqb (lc_obs_data (store [1; 2] [PauliX 0; PauliZ 1]))
          (lc_obs_data (store [2; 1] [PauliZ 1; PauliX 0])) = true.
Proof.
  assert (zip (coeffs (store [1; 2] [PauliX 0; PauliZ 1]))
              (ops (store [1; 2] [PauliX 0; PauliZ 1]))
            ≡ₚ zip (coeffs (store [2; 1] [PauliZ 1; PauliX 0]))
                   (ops (store [2; 1] [PauliZ 1; PauliX 0]))) as Hperm.
  { simpl. apply perm_swap. }
  split; [exact Hperm|].
  exact (proj1 (obs_data_order_independent _ _) Hperm).
Defined.

Lemma add_iadd_agree_witness :
  length (coeffs grouped) = length (ops grouped) ∧
  length (coeffs cancelling) = length (ops cancelling) ∧
  ∃ S', add grouped (AddStore cancelling) = Ok (Returns S') ∧
        iadd grouped (AddStore cancelling) = Ok (Returns S', S') ∧
        coeffs S' = [2] ∧ ops S' = [PauliX 0] ∧ grouping_indices S' = None.
Proof.
  split; [reflexivity|]. split; [reflexivity|].
  destruct (add_iadd_agree grouped cancelling eq_refl eq_refl)
    as (S' & Hadd & Hiadd & _ & Hg & _).
  exists S'. split; [exact Hadd|]. split; [exact Hiadd|].
  vm_compute in Hadd. injection Hadd as <-. repeat split; reflexivity.
Defined.

Lemma simplify_preserves_class_sums_witness :
  ring_theory 0 1 Z.add Z.mul Z.sub Z.opp eq ∧
  (∀ x : Z, isclose0 x = true → x = r0) ∧
  simplify through_zero = Ok through_zero_simplified ∧
  ∀ op, class_sum op (terms_of through_zero_simplified) =
          class_sum op (terms_of through_zero).
Proof.
  split; [exact Zth|]. split; [exact Z_isclose0_exact|].
  split; [exact simplify_through_zero|].
  exact (@simplify_preserves_class_sums Z Z_numeric Zth Z_isclose0_exact
           through_zero _ simplify_through_zero).
Defined.

Lemma arithmetic_class_sums_witness :
  ring_theory 0 1 Z.add Z.mul Z.sub Z.opp eq ∧
  (∀ x : Z, isclose0 x = true → x = r0) ∧
  length (coeffs grouped) = length (ops grouped) ∧
  length (coeffs through_zero) = length (ops through_zero) ∧
  ∃ Sadd Smul Ssub,
    add grouped (AddStore through_zero) = Ok (Returns Sadd) ∧
    mul true grouped (PyScalar 5) = Ok (Returns Smul) ∧
    sub true (fun _ _ => AddOther) grouped (PyStore through_zero) = Ok (Returns Ssub) ∧
    ∀ op, class_sum op (terms_of Sadd) =
            radd (class_sum op (terms_of grouped)) (class_sum op (terms_of through_zero)) ∧
          class_sum op (terms_of Smul) = rmul 5 (class_sum op (terms_of grouped)) ∧
          class_sum op (terms_of Ssub) =
            rsub (class_sum op (terms_of grouped)) (class_sum op (terms_of through_zero)).
Proof.
  split; [exact Zth|]. split; [exact Z_isclose0_exact|].
  split; [reflexivity|]. split; [reflexivity|].
  exact (@arithmetic_class_sums Z Z_numeric _ true (fun _ _ => AddOther) Zth Z_isclose0_exact
           grouped through_zero 5 eq_refl eq_refl).
Defined.

Lemma sparse_matrix_dimension_witness :
  ∃ M, sparse_matrix pauli_matrix scenario5 None = Ok M ∧ dim M = 4%nat.
Proof.
  assert (∃ M, sparse_matrix pauli_matrix scenario5 None = Ok M) as [M HM].
  { eexists. vm_compute. reflexivity. }
  exists M. split; [exact HM|].
  exact (sparse_matrix_dimension pauli_matrix scenario5 None M HM).
Defined.

Lemma sparse_matrix_multi_wire_factor_witness :
  (1, Hermitian01) ∈ zip (data two_wire_factor) (ops two_wire_factor) ∧
  Exists (fun o => wires_more o ≠ []) (obs Hermitian01) ∧
  head (zip (data two_wire_factor) (ops two_wire_factor)) = Some (1, Hermitian01) ∧
  sparse_matrix pauli_matrix two_wire_factor None = Raise ValueError.
Proof.
  assert ((1, Hermitian01) ∈ zip (data two_wire_factor) (ops two_wire_factor)) as Hin.
  { simpl. by left. }
  assert (Exists (fun o => wires_more o ≠ []) (obs Hermitian01)) as Hex.
  { left. discriminate. }
  split; [exact Hin|]. split; [exact Hex|]. split; [reflexivity|].
  exact (proj2 (sparse_matrix_multi_wire_factor pauli_matrix two_wire_factor None 1
                  Hermitian01 Hin Hex) eq_refl).
Defined.

Lemma sparse_matrix_empty_order_witness :
  zip (data two_wires) (ops two_wires) = [(1, tensor2 (PauliX 0) (PauliZ 1))] ∧
  Forall (fun o => wires_more o = []) (obs (tensor2 (PauliX 0) (PauliZ 1))) ∧
  sparse_matrix pauli_matrix two_wires (Some []) = Raise TypeError ∧
  sparse_matrix pauli_matrix (store [] []) (Some []) = Ok (zeros 1).
Proof.
  assert (Forall (fun o => wires_more o = []) (obs (tensor2 (PauliX 0) (PauliZ 1)))) as Hs.
  { repeat constructor. }
  split; [reflexivity|]. split; [exact Hs|]. split.
  - exact (proj1 (sparse_matrix_empty_order pauli_matrix two_wires) _ _ _ eq_refl Hs).
  - exact (proj2 (sparse_matrix_empty_order pauli_matrix (store [] [])) eq_refl).
Defined.

(** The tensor product with X(0) of a store that acts on wire 0 returns. *)
Lemma matmul_operand_unchecked_witness :
  length (coeffs grouped) = length (ops grouped) ∧
  0 ∈ wires grouped ∧ 0 ∈ op_wires (PauliX 0) ∧
  ∃ S', matmul grouped (PyOperand (PauliX 0)) = Ok (Returns S') ∧
        coeffs S' = [2] ∧ ops S' = [tensor2 (PauliX 0) (PauliX 0)] ∧
        grouping_indices S' = None.
Proof.
  split; [reflexivity|]. split; [decide_by_computation|]. split; [decide_by_computation|].
  destruct (matmul_operand_unchecked grouped (PauliX 0) eq_refl) as (S' & Hm & _ & _ & Hg).
  exists S'. split; [exact Hm|].
  vm_compute in Hm. injection Hm as <-. split_and!; reflexivity.
Defined.
